(** * Tribute reward distribution (scripts/test-rewards/calculate-rewards.py)

    A shallow embedding of [RewardsCalculator] and the properties of the
    reward split between the protocol, the hydromancer and the users.

    The calculator works on Python's [decimal.Decimal] under the default
    context: 28 significant digits, ROUND_HALF_EVEN, with the traps for
    InvalidOperation and DivisionByZero enabled.  A Decimal is modelled as
    the triple (sign, coefficient, exponent) the library stores.  The
    exponent limits of the context (Emin = -999999, Emax = 999999) are far
    from anything a scenario holds and exponents are taken unbounded; NaN and
    infinities cannot arise because both division traps are enabled. *)

From Stdlib Require Import ZArith NArith List String Ascii Bool Lia.
From Stdlib Require Import DecimalString.
From Stdlib Require Import Reals Lra.
Import ListNotations.

Local Open Scope Z_scope.

(** ** Errors and the result monad *)

(** The exceptions the calculator can raise. *)
Inductive error : Type :=
| ValueError        (* "Invalid vessel token": raised by calculate_voting_power *)
| KeyError          (* duration_multipliers[lock_duration] without such a key *)
| InvalidOperation  (* decimal: 0 / 0, or a quantize result of too many digits *)
| DivisionByZero.   (* decimal: x / 0 with x nonzero *)

Inductive result (A : Type) : Type :=
| Ok (a : A)
| Err (e : error).
Arguments Ok {A} a.
Arguments Err {A} e.

Definition bind {A B : Type} (m : result A) (k : A -> result B) : result B :=
  match m with
  | Ok a => k a
  | Err e => Err e
  end.

Notation "'do' x <- m ; k" := (bind m (fun x => k))
  (at level 10, x name, m at level 100, k at level 200).

(** A loop whose body can raise: left to right, stopping at the first error. *)
Fixpoint foldM {A B : Type} (f : A -> B -> result A) (l : list B) (a : A)
  : result A :=
  match l with
  | [] => Ok a
  | x :: l' => do a' <- f a x; foldM f l' a'
  end.

Definition is_ok {A : Type} (m : result A) : bool :=
  match m with Ok _ => true | Err _ => false end.

(** ** Decimal arithmetic under the default context *)

Module Dec.

(** [sign] is [true] for a negative number; the value is
    (-1)^sign * coefficient * 10^exponent. *)
Record Decimal : Type := mkDecimal {
  d_sign : bool;
  d_int : N;
  d_exp : Z
}.

Definition prec : Z := 28.

Fixpoint ndigits_aux (fuel : nat) (c : Z) : Z :=
  match fuel with
  | O => 1
  | S f => if c <? 10 then 1 else 1 + ndigits_aux f (c / 10)
  end.

(** len(str(c)) for a coefficient c >= 0. *)
Definition ndigits (c : Z) : Z := ndigits_aux (S (Z.to_nat (Z.log2 c))) c.

Definition is_zero (d : Decimal) : bool := N.eqb (d_int d) 0.

(** Decimal(n) for a Python int. *)
Definition of_Z (n : Z) : Decimal := mkDecimal (n <? 0) (Z.abs_N n) 0.

Definition zero : Decimal := mkDecimal false 0 0.
Definition one : Decimal := mkDecimal false 1 0.

(** Rounding [c] to the integer nearest to c / 10^k, ties to even
    (ROUND_HALF_EVEN) for k > 0. *)
Definition round_half_even (c k : Z) : Z :=
  let q := c / 10 ^ k in
  let r := c mod 10 ^ k in
  let half := 5 * 10 ^ (k - 1) in
  if (half <? r) || ((r =? half) && Z.odd q) then q + 1 else q.

(** ROUND_HALF_UP on the magnitude, for k > 0. *)
Definition round_half_up (c k : Z) : Z :=
  let q := c / 10 ^ k in
  let r := c mod 10 ^ k in
  if 5 * 10 ^ (k - 1) <=? r then q + 1 else q.

(** Decimal._fix: round the triple to at most [prec] digits. *)
Definition fix_ (s : bool) (c : Z) (e : Z) : Decimal :=
  let k := ndigits c - prec in
  if k <=? 0 then mkDecimal s (Z.to_N c) e
  else
    let q := round_half_even c k in
    if q =? 10 ^ prec then mkDecimal s (Z.to_N (10 ^ (prec - 1))) (e + k + 1)
    else mkDecimal s (Z.to_N q) (e + k).

Definition coeff (d : Decimal) : Z := Z.of_N (d_int d).

(** The coefficient with its sign. *)
Definition scoeff (d : Decimal) : Z := if d_sign d then - coeff d else coeff d.

(** Decimal.__mul__ *)
Definition mul (a b : Decimal) : Decimal :=
  fix_ (xorb (d_sign a) (d_sign b)) (coeff a * coeff b) (d_exp a + d_exp b).

(** Decimal.__add__: the exact sum at the smaller exponent, then rounded. *)
Definition add (a b : Decimal) : Decimal :=
  let e := Z.min (d_exp a) (d_exp b) in
  let z := scoeff a * 10 ^ (d_exp a - e) + scoeff b * 10 ^ (d_exp b - e) in
  let s := if z =? 0 then is_zero a && is_zero b && d_sign a && d_sign b
           else z <? 0 in
  fix_ s (Z.abs z) e.

Definition neg (a : Decimal) : Decimal :=
  mkDecimal (negb (d_sign a)) (d_int a) (d_exp a).

(** Decimal.__sub__ *)
Definition sub (a b : Decimal) : Decimal := add a (neg b).

(** The loop of __truediv__ that brings an exact quotient as close to the
    ideal exponent as its trailing zeros allow. *)
Fixpoint strip_zeros (fuel : nat) (c e ideal : Z) : Z * Z :=
  match fuel with
  | O => (c, e)
  | S f =>
      if (e <? ideal) && (c mod 10 =? 0) then strip_zeros f (c / 10) (e + 1) ideal
      else (c, e)
  end.

(** Decimal.__truediv__ for a nonzero divisor. *)
Definition div_nz (a b : Decimal) : Decimal :=
  let s := xorb (d_sign a) (d_sign b) in
  if is_zero a then fix_ s 0 (d_exp a - d_exp b)
  else
    let shift := ndigits (coeff b) - ndigits (coeff a) + prec + 1 in
    let e := d_exp a - d_exp b - shift in
    let n := if 0 <=? shift then coeff a * 10 ^ shift else coeff a in
    let m := if 0 <=? shift then coeff b else coeff b * 10 ^ (- shift) in
    let q := n / m in
    let r := n mod m in
    if r =? 0 then
      let '(q', e') := strip_zeros (Z.to_nat (ndigits q)) q e (d_exp a - d_exp b) in
      fix_ s q' e'
    else
      fix_ s (if q mod 5 =? 0 then q + 1 else q) e.

(** Decimal.__truediv__ with the traps of the default context. *)
Definition div (a b : Decimal) : result Decimal :=
  if is_zero b then
    if is_zero a then Err InvalidOperation else Err DivisionByZero
  else Ok (div_nz a b).

(** [a > 0], the comparison the calculator uses. *)
Definition gt0 (a : Decimal) : bool := negb (d_sign a) && negb (is_zero a).

(** Decimal.quantize(Decimal('0.01'), rounding=ROUND_HALF_UP) *)
Definition quantize2 (a : Decimal) : result Decimal :=
  if is_zero a then Ok (mkDecimal (d_sign a) 0 (-2))
  else
    let len := ndigits (coeff a) in
    if prec <? len + d_exp a + 2 then Err InvalidOperation
    else if -2 <=? d_exp a then
      Ok (mkDecimal (d_sign a) (Z.to_N (coeff a * 10 ^ (d_exp a + 2))) (-2))
    else
      let digits := len + d_exp a + 2 in
      let c := if digits <? 0 then 0
               else round_half_up (coeff a) (- 2 - d_exp a) in
      if prec <? ndigits c then Err InvalidOperation
      else Ok (mkDecimal (d_sign a) (Z.to_N c) (-2)).

Definition string_of_Z (n : Z) : string :=
  NilZero.string_of_uint (N.to_uint (Z.to_N n)).

Fixpoint zeros (n : nat) : string :=
  match n with
  | O => EmptyString
  | S n' => String "0" (zeros n')
  end.

(** str(d) for a Decimal with exponent <= 0 and more than -6 digits to the
    left of the point: the plain notation, which every quantized amount has. *)
Definition to_string (d : Decimal) : string :=
  let digits := string_of_Z (coeff d) in
  let len := Z.of_nat (String.length digits) in
  let dotplace := d_exp d + len in
  let sgn := if d_sign d then "-"%string else EmptyString in
  let body :=
    if dotplace <=? 0 then
      ("0." ++ zeros (Z.to_nat (- dotplace)) ++ digits)%string
    else if len <=? dotplace then
      (digits ++ zeros (Z.to_nat (dotplace - len)))%string
    else
      (substring 0 (Z.to_nat dotplace) digits ++ "." ++
       substring (Z.to_nat dotplace) (Z.to_nat (len - dotplace)) digits)%string
  in (sgn ++ body)%string.

(** *** Real values *)

(** 10^e as a real number, for any integer e. *)
Definition p10 (e : Z) : R := powerRZ 10 e.

(** The number a Decimal denotes. *)
Definition value (d : Decimal) : R := (IZR (scoeff d) * p10 (d_exp d))%R.

(** Half a unit in the last of [prec] places: the relative error of one
    rounding. *)
Definition u : R := (/ IZR (2 * 10 ^ (prec - 1)))%R.

(** [approx k x' x]: the nonnegative numbers x' and x are within the
    relative distance (1 + u)^k of each other, as after k roundings. *)
Definition approx (k : nat) (x' x : R) : Prop :=
  (0 <= x' /\ 0 <= x /\ x <= (1 + u) ^ k * x' /\ x' <= (1 + u) ^ k * x)%R.

(** A Decimal with the sign of a positive number (zero included). *)
Definition nonneg (d : Decimal) : Prop := d_sign d = false.

End Dec.

Abbreviation Decimal := Dec.Decimal.

(** [D c e] is the Decimal the string "c" with the point moved [-e] places
    denotes: Decimal("1000.00") is [D 100000 (-2)]. *)
Definition D (c : N) (e : Z) : Decimal := Dec.mkDecimal false c e.

(** ** Dictionaries

    A Python dict keeps its keys in insertion order, and the loops of the
    calculator run over [items()] in that order: an association list with
    unique keys, a new key going to the end. *)

Section Dict.
Context {K V : Type} (eqb : K -> K -> bool).

Fixpoint dict_get (d : list (K * V)) (k : K) : option V :=
  match d with
  | [] => None
  | (k', v) :: d' => if eqb k' k then Some v else dict_get d' k
  end.

Fixpoint dict_set (d : list (K * V)) (k : K) (v : V) : list (K * V) :=
  match d with
  | [] => [(k, v)]
  | (k', v') :: d' =>
      if eqb k' k then (k', v) :: d' else (k', v') :: dict_set d' k v
  end.

Definition dict_mem (d : list (K * V)) (k : K) : bool :=
  match dict_get d k with Some _ => true | None => false end.

(** [d[k]] on a defaultdict: the default when the key is missing. *)
Definition dict_get_default (dflt : V) (d : list (K * V)) (k : K) : V :=
  match dict_get d k with Some v => v | None => dflt end.
End Dict.

(** [rewards[denom] += x] on a [defaultdict(Decimal)]: a missing key starts
    from [Decimal()], which is zero. *)
Definition add_reward (rewards : list (string * Decimal)) (denom : string)
    (x : Decimal) : list (string * Decimal) :=
  dict_set String.eqb rewards denom
    (Dec.add (dict_get_default String.eqb Dec.zero rewards denom) x).

(** [user_rewards[user_id][denom] += x] on the nested defaultdict. *)
Definition add_user_reward (user_rewards : list (string * list (string * Decimal)))
    (user_id denom : string) (x : Decimal)
  : list (string * list (string * Decimal)) :=
  dict_set String.eqb user_rewards user_id
    (add_reward (dict_get_default String.eqb [] user_rewards user_id) denom x).

(** ** The scenario *)

Record Vessel : Type := {
  vessel_id : Z;
  lock_duration_rounds : Z;
  locked_denom : string;
  locked_amount : Decimal;      (* Decimal(vessel["locked_amount"]) *)
  controlled_by : string;
  voted_proposal_id : option Z  (* None: no vote *)
}.

Record User : Type := {
  user_id : string;
  vessels : list Vessel
}.

Record Tribute : Type := {
  tribute_id : Z;
  denom : string;
  amount : Decimal              (* Decimal(tribute["amount"]) *)
}.

Record Proposal : Type := {
  proposal_id : Z;
  bid_duration_months : Z;
  tributes : list Tribute
}.

Record ProtocolConfig : Type := {
  protocol_commission_bps : Z;
  hydromancer_commission_bps : Z
}.

Record Scenario : Type := {
  protocol_config : ProtocolConfig;
  users : list User;
  proposals : list Proposal
}.

(** [vessel.copy()] with its owner's ["user_id"] added. *)
Record VesselWithUser : Type := {
  vu_vessel : Vessel;
  vu_user_id : string
}.

(** ** RewardsCalculator *)

Definition token_multipliers : list (string * Decimal) :=
  [("dATOM"%string, D 13 (-1)); ("stATOM"%string, D 16 (-1))].

Definition duration_multipliers : list (Z * Decimal) :=
  [(1, D 10 (-1)); (2, D 125 (-2)); (3, D 15 (-1))].

Definition calculate_voting_power (vessel : Vessel) : result Decimal :=
  let amount := locked_amount vessel in
  match dict_get String.eqb token_multipliers (locked_denom vessel) with
  | None => Err ValueError
  | Some token_multiplier =>
      match dict_get Z.eqb duration_multipliers (lock_duration_rounds vessel) with
      | None => Err KeyError
      | Some duration_multiplier =>
          Ok (Dec.mul (Dec.mul amount token_multiplier) duration_multiplier)
      end
  end.

Definition add_voted_vessel (u : User)
    (acc : list (Z * list VesselWithUser)) (vessel : Vessel)
  : list (Z * list VesselWithUser) :=
  match voted_proposal_id vessel with
  | Some pid =>
      dict_set Z.eqb acc pid
        (dict_get_default Z.eqb [] acc pid
           ++ [{| vu_vessel := vessel; vu_user_id := user_id u |}])
  | None => acc
  end.

Definition get_vessels_by_proposal (scenario : Scenario)
  : list (Z * list VesselWithUser) :=
  fold_left (fun acc u => fold_left (add_voted_vessel u) (vessels u) acc)
    (users scenario) [].

(** [Decimal(bps) / Decimal("10000")] *)
Definition commission_rate (bps : Z) : result Decimal :=
  Dec.div (Dec.of_Z bps) (D 10000 0).

Definition is_hydromancer (v : VesselWithUser) : bool :=
  String.eqb (controlled_by (vu_vessel v)) "hydromancer".

Definition is_user (v : VesselWithUser) : bool :=
  String.eqb (controlled_by (vu_vessel v)) "user".

(** *** calculate_protocol_rewards *)

Definition protocol_proposal_step (rate : Decimal)
    (vessels_by_proposal : list (Z * list VesselWithUser))
    (rewards : list (string * Decimal)) (proposal : Proposal)
  : list (string * Decimal) :=
  if dict_mem Z.eqb vessels_by_proposal (proposal_id proposal) then
    fold_left
      (fun rewards tribute =>
         let commission := Dec.mul (amount tribute) rate in
         add_reward rewards (denom tribute) commission)
      (tributes proposal) rewards
  else rewards.

Definition calculate_protocol_rewards (scenario : Scenario)
  : result (list (string * Decimal)) :=
  do protocol_commission_rate <-
    commission_rate (protocol_commission_bps (protocol_config scenario));
  let vessels_by_proposal := get_vessels_by_proposal scenario in
  Ok (fold_left (protocol_proposal_step protocol_commission_rate vessels_by_proposal)
        (proposals scenario) []).

(** *** Voting power per proposal *)

Definition sum_power (vessels : list VesselWithUser) (start : Decimal)
  : result Decimal :=
  foldM (fun power v =>
           do p <- calculate_voting_power (vu_vessel v);
           Ok (Dec.add power p))
    vessels start.

Definition calculate_hydromancer_voting_power_by_proposal (scenario : Scenario)
  : result (list (Z * Decimal)) :=
  foldM (fun acc '(pid, vessels) =>
           do hydromancer_power <- sum_power (filter is_hydromancer vessels) Dec.zero;
           Ok (dict_set Z.eqb acc pid hydromancer_power))
    (get_vessels_by_proposal scenario) [].

Definition calculate_total_voting_power_by_proposal (scenario : Scenario)
  : result (list (Z * Decimal)) :=
  foldM (fun acc '(pid, vessels) =>
           do total_power <- sum_power vessels Dec.zero;
           Ok (dict_set Z.eqb acc pid total_power))
    (get_vessels_by_proposal scenario) [].

(** [d[k]] on a plain dict. *)
Definition dict_index {V : Type} (d : list (Z * V)) (k : Z) : result V :=
  match dict_get Z.eqb d k with Some v => Ok v | None => Err KeyError end.

(** *** calculate_hydromancer_rewards *)

(** The body of the tribute loop: the commission the hydromancer takes on one
    tribute, from the share of the voting power it holds. *)
Definition hydromancer_commission (protocol_commission_rate
    hydromancer_commission_rate hydromancer_share : Decimal) (tribute : Tribute)
  : Decimal :=
  let tribute_amount := amount tribute in
  let after_protocol_commission :=
    Dec.mul tribute_amount (Dec.sub Dec.one protocol_commission_rate) in
  let hydromancer_tribute_share :=
    Dec.mul after_protocol_commission hydromancer_share in
  Dec.mul hydromancer_tribute_share hydromancer_commission_rate.

Definition hydromancer_proposal_step
    (protocol_commission_rate hydromancer_commission_rate : Decimal)
    (hydromancer_power_by_proposal total_power_by_proposal : list (Z * Decimal))
    (rewards : list (string * Decimal)) (proposal : Proposal)
  : result (list (string * Decimal)) :=
  let pid := proposal_id proposal in
  match dict_get Z.eqb hydromancer_power_by_proposal pid with
  | Some hydromancer_power =>
      if Dec.gt0 hydromancer_power then
        do total_power <- dict_index total_power_by_proposal pid;
        do hydromancer_share <- Dec.div hydromancer_power total_power;
        Ok (fold_left
              (fun rewards tribute =>
                 add_reward rewards (denom tribute)
                   (hydromancer_commission protocol_commission_rate
                      hydromancer_commission_rate hydromancer_share tribute))
              (tributes proposal) rewards)
      else Ok rewards
  | None => Ok rewards
  end.

Definition calculate_hydromancer_rewards (scenario : Scenario)
  : result (list (string * Decimal)) :=
  do hydromancer_commission_rate <-
    commission_rate (hydromancer_commission_bps (protocol_config scenario));
  do protocol_commission_rate <-
    commission_rate (protocol_commission_bps (protocol_config scenario));
  do hydromancer_power_by_proposal <-
    calculate_hydromancer_voting_power_by_proposal scenario;
  do total_power_by_proposal <- calculate_total_voting_power_by_proposal scenario;
  foldM (hydromancer_proposal_step protocol_commission_rate
           hydromancer_commission_rate hydromancer_power_by_proposal
           total_power_by_proposal)
    (proposals scenario) [].

(** *** calculate_user_direct_rewards *)

(** The body of the tribute loop for one user-controlled vessel. *)
Definition direct_reward (protocol_commission_rate user_share : Decimal)
    (tribute : Tribute) : Decimal :=
  let tribute_amount := amount tribute in
  let after_protocol_commission :=
    Dec.mul tribute_amount (Dec.sub Dec.one protocol_commission_rate) in
  Dec.mul after_protocol_commission user_share.

Definition direct_vessel_step (protocol_commission_rate total_power : Decimal)
    (proposal : Proposal)
    (user_rewards : list (string * list (string * Decimal)))
    (vessel : VesselWithUser)
  : result (list (string * list (string * Decimal))) :=
  do vessel_power <- calculate_voting_power (vu_vessel vessel);
  do user_share <- Dec.div vessel_power total_power;
  Ok (fold_left
        (fun user_rewards tribute =>
           add_user_reward user_rewards (vu_user_id vessel) (denom tribute)
             (direct_reward protocol_commission_rate user_share tribute))
        (tributes proposal) user_rewards).

Definition direct_proposal_step (protocol_commission_rate : Decimal)
    (vessels_by_proposal : list (Z * list VesselWithUser))
    (total_power_by_proposal : list (Z * Decimal))
    (user_rewards : list (string * list (string * Decimal)))
    (proposal : Proposal)
  : result (list (string * list (string * Decimal))) :=
  let pid := proposal_id proposal in
  match dict_get Z.eqb vessels_by_proposal pid with
  | Some voted =>
      do total_power <- dict_index total_power_by_proposal pid;
      let user_vessels := filter is_user voted in
      foldM (direct_vessel_step protocol_commission_rate total_power proposal)
        user_vessels user_rewards
  | None => Ok user_rewards
  end.

Definition calculate_user_direct_rewards (scenario : Scenario)
  : result (list (string * list (string * Decimal))) :=
  do protocol_commission_rate <-
    commission_rate (protocol_commission_bps (protocol_config scenario));
  let vessels_by_proposal := get_vessels_by_proposal scenario in
  do total_power_by_proposal <- calculate_total_voting_power_by_proposal scenario;
  foldM (direct_proposal_step protocol_commission_rate vessels_by_proposal
           total_power_by_proposal)
    (proposals scenario) [].

(** *** calculate_user_delegated_rewards *)

Definition add_delegated_vessel (u : User)
    (acc : list (string * list (Z * list VesselWithUser))) (vessel : Vessel)
  : list (string * list (Z * list VesselWithUser)) :=
  if String.eqb (controlled_by vessel) "hydromancer" then
    let by_duration := dict_get_default String.eqb [] acc (user_id u) in
    let d := lock_duration_rounds vessel in
    dict_set String.eqb acc (user_id u)
      (dict_set Z.eqb by_duration d
         (dict_get_default Z.eqb [] by_duration d
            ++ [{| vu_vessel := vessel; vu_user_id := user_id u |}]))
  else acc.

(** The hydromancer-controlled vessels of every user, by lock duration. *)
Definition user_vessels_by_duration (scenario : Scenario)
  : list (string * list (Z * list VesselWithUser)) :=
  fold_left (fun acc u => fold_left (add_delegated_vessel u) (vessels u) acc)
    (users scenario) [].

(** The inner loops of the eligibility computation for one user. *)
Definition eligible_power_of_user (proposal_duration : Z)
    (vessels_by_duration : list (Z * list VesselWithUser)) : result Decimal :=
  foldM (fun user_power '(duration, vessels) =>
           if proposal_duration <=? duration then sum_power vessels user_power
           else Ok user_power)
    vessels_by_duration Dec.zero.

(** [eligible_user_power] and [total_eligible_power] for one proposal. *)
Definition eligible_users (proposal_duration : Z)
    (by_user : list (string * list (Z * list VesselWithUser)))
  : result (list (string * Decimal) * Decimal) :=
  foldM (fun '(eligible_user_power, total_eligible_power) '(uid, vessels_by_duration) =>
           do user_power <- eligible_power_of_user proposal_duration vessels_by_duration;
           if Dec.gt0 user_power then
             Ok (dict_set String.eqb eligible_user_power uid user_power,
                 Dec.add total_eligible_power user_power)
           else Ok (eligible_user_power, total_eligible_power))
    by_user ([], Dec.zero).

(** What is left of the hydromancer's share of a tribute after both
    commissions. *)
Definition after_hydromancer_commission (protocol_commission_rate
    hydromancer_commission_rate hydromancer_share : Decimal) (tribute : Tribute)
  : Decimal :=
  let tribute_amount := amount tribute in
  let after_protocol_commission :=
    Dec.mul tribute_amount (Dec.sub Dec.one protocol_commission_rate) in
  let hydromancer_tribute_share :=
    Dec.mul after_protocol_commission hydromancer_share in
  Dec.mul hydromancer_tribute_share (Dec.sub Dec.one hydromancer_commission_rate).

(** The loop over the eligible users for one tribute. *)
Definition delegated_tribute_step (residual total_eligible_power : Decimal)
    (eligible_user_power : list (string * Decimal)) (tribute_denom : string)
    (user_rewards : list (string * list (string * Decimal)))
  : result (list (string * list (string * Decimal))) :=
  foldM (fun user_rewards '(uid, user_power) =>
           do user_share <- Dec.div user_power total_eligible_power;
           let user_reward := Dec.mul residual user_share in
           Ok (add_user_reward user_rewards uid tribute_denom user_reward))
    eligible_user_power user_rewards.

Definition delegated_proposal_step
    (protocol_commission_rate hydromancer_commission_rate : Decimal)
    (scenario : Scenario)
    (by_user : list (string * list (Z * list VesselWithUser)))
    (user_rewards : list (string * list (string * Decimal)))
    (proposal : Proposal)
  : result (list (string * list (string * Decimal))) :=
  let proposal_duration := bid_duration_months proposal in
  let pid := proposal_id proposal in
  let vessels_by_proposal := get_vessels_by_proposal scenario in
  match dict_get Z.eqb vessels_by_proposal pid with
  | None => Ok user_rewards
  | Some voted =>
      let hydromancer_vessels_for_proposal := filter is_hydromancer voted in
      match hydromancer_vessels_for_proposal with
      | [] => Ok user_rewards
      | _ :: _ =>
          do total_hydromancer_power_for_proposal <-
            sum_power hydromancer_vessels_for_proposal Dec.zero;
          do total_power_by_proposal <-
            calculate_total_voting_power_by_proposal scenario;
          do total_power <- dict_index total_power_by_proposal pid;
          do hydromancer_share <-
            Dec.div total_hydromancer_power_for_proposal total_power;
          do eligible <- eligible_users proposal_duration by_user;
          let '(eligible_user_power, total_eligible_power) := eligible in
          if Dec.gt0 total_eligible_power then
            foldM (fun user_rewards tribute =>
                     delegated_tribute_step
                       (after_hydromancer_commission protocol_commission_rate
                          hydromancer_commission_rate hydromancer_share tribute)
                       total_eligible_power eligible_user_power (denom tribute)
                       user_rewards)
              (tributes proposal) user_rewards
          else Ok user_rewards
      end
  end.

Definition calculate_user_delegated_rewards (scenario : Scenario)
  : result (list (string * list (string * Decimal))) :=
  do protocol_commission_rate <-
    commission_rate (protocol_commission_bps (protocol_config scenario));
  do hydromancer_commission_rate <-
    commission_rate (hydromancer_commission_bps (protocol_config scenario));
  foldM (delegated_proposal_step protocol_commission_rate
           hydromancer_commission_rate scenario
           (user_vessels_by_duration scenario))
    (proposals scenario) [].

(** *** calculate_all_rewards *)

Record Rewards : Type := {
  protocol_rewards : list (string * string);
  hydromancer_rewards : list (string * string);
  user_rewards : list (string * list (string * string))
}.

(** [all_user_rewards[user_id][denom] += amount] over one rewards dict. *)
Definition merge_user_rewards
    (all_user_rewards rewards_by_user : list (string * list (string * Decimal)))
  : list (string * list (string * Decimal)) :=
  fold_left
    (fun acc '(uid, rewards) =>
       fold_left (fun acc '(dn, amt) => add_user_reward acc uid dn amt) rewards acc)
    rewards_by_user all_user_rewards.

(** [str(amount.quantize(Decimal('0.01'), rounding=ROUND_HALF_UP))] for every
    entry of a rewards dict. *)
Fixpoint render_rewards (rewards : list (string * Decimal))
  : result (list (string * string)) :=
  match rewards with
  | [] => Ok []
  | (dn, amt) :: rest =>
      do q <- Dec.quantize2 amt;
      do rest' <- render_rewards rest;
      Ok ((dn, Dec.to_string q) :: rest')
  end.

Fixpoint render_user_rewards (all : list (string * list (string * Decimal)))
  : result (list (string * list (string * string))) :=
  match all with
  | [] => Ok []
  | (uid, rewards) :: rest =>
      do r <- render_rewards rewards;
      do rest' <- render_user_rewards rest;
      Ok ((uid, r) :: rest')
  end.

(** The amounts before the final rounding to two decimals. *)
Record RawRewards : Type := {
  raw_protocol : list (string * Decimal);
  raw_hydromancer : list (string * Decimal);
  raw_users : list (string * list (string * Decimal))
}.

Definition calculate_raw_rewards (scenario : Scenario) : result RawRewards :=
  do protocol <- calculate_protocol_rewards scenario;
  do hydromancer <- calculate_hydromancer_rewards scenario;
  do user_direct_rewards <- calculate_user_direct_rewards scenario;
  do user_delegated_rewards <- calculate_user_delegated_rewards scenario;
  let all_user_rewards :=
    merge_user_rewards (merge_user_rewards [] user_direct_rewards)
      user_delegated_rewards in
  Ok {| raw_protocol := protocol;
        raw_hydromancer := hydromancer;
        raw_users := all_user_rewards |}.

Definition calculate_all_rewards (scenario : Scenario) : result Rewards :=
  do raw <- calculate_raw_rewards scenario;
  do final_user_rewards <- render_user_rewards (raw_users raw);
  do p <- render_rewards (raw_protocol raw);
  do h <- render_rewards (raw_hydromancer raw);
  Ok {| protocol_rewards := p;
        hydromancer_rewards := h;
        user_rewards := final_user_rewards |}.

(** ** The sample scenario of the script *)

Definition sample_scenario : Scenario := {|
  protocol_config := {| protocol_commission_bps := 1000;
                        hydromancer_commission_bps := 500 |};
  users := [
    {| user_id := "A";
       vessels := [
         {| vessel_id := 1; lock_duration_rounds := 2; locked_denom := "dATOM";
            locked_amount := D 100 0; controlled_by := "hydromancer";
            voted_proposal_id := Some 1 |};
         {| vessel_id := 2; lock_duration_rounds := 1; locked_denom := "stATOM";
            locked_amount := D 50 0; controlled_by := "user";
            voted_proposal_id := Some 1 |} ] |} ];
  proposals := [
    {| proposal_id := 1; bid_duration_months := 1;
       tributes := [
         {| tribute_id := 1; denom := "dATOM"; amount := D 100000 (-2) |};
         {| tribute_id := 2; denom := "USDC"; amount := D 50000 (-2) |} ] |} ]
|}.

(** * Definitions for the properties *)

Import Dec.

(** The rate of a commission of [bps] basis points and what is left of 1. *)
Definition rate_of (bps : Z) : Decimal := Dec.div_nz (Dec.of_Z bps) (D 10000 0).

Definition rate_check (bps : Z) : bool :=
  let r := rate_of bps in
  let q := Dec.sub Dec.one r in
  let e := Z.min (Z.min (d_exp r) (d_exp q)) 0 in
  negb (d_sign r) && negb (d_sign q) &&
  (scoeff r * 10 ^ (d_exp r - e) + scoeff q * 10 ^ (d_exp q - e) =? 10 ^ (0 - e)).

(** Every vessel of the scenario next to its owner, in the order of the two
    nested loops. *)
Definition all_vessels (s : Scenario) : list (User * Vessel) :=
  flat_map (fun u => map (pair u) (vessels u)) (users s).

Definition votes_for (pid : Z) (uv : User * Vessel) : bool :=
  match voted_proposal_id (snd uv) with
  | Some p => Z.eqb p pid
  | None => false
  end.

Definition with_user (uv : User * Vessel) : VesselWithUser :=
  {| vu_vessel := snd uv; vu_user_id := user_id (fst uv) |}.

(** The vessels voting for proposal [pid], in scenario order. *)
Definition voters_of (s : Scenario) (pid : Z) : list VesselWithUser :=
  map with_user (filter (votes_for pid) (all_vessels s)).

(** The accumulator of the grouping loop: unique keys, no empty group. *)
Definition groups_ok (acc : list (Z * list VesselWithUser)) : Prop :=
  NoDup (map fst acc) /\ forall k l, In (k, l) acc -> l <> [].

(** The shape shared by the two per-proposal power tables. *)
Definition power_table (f : list VesselWithUser -> result Decimal)
    (items : list (Z * list VesselWithUser)) (acc : list (Z * Decimal))
  : result (list (Z * Decimal)) :=
  foldM (fun acc '(pid, vessels) =>
           do x <- f vessels; Ok (dict_set Z.eqb acc pid x))
    items acc.

Definition with_proposals (s : Scenario) (l : list Proposal) : Scenario :=
  {| protocol_config := protocol_config s; users := users s; proposals := l |}.

Definition valid_denom (v : Vessel) : bool :=
  String.eqb (locked_denom v) "dATOM" || String.eqb (locked_denom v) "stATOM".

Definition valid_duration (v : Vessel) : bool :=
  Z.eqb (lock_duration_rounds v) 1 || Z.eqb (lock_duration_rounds v) 2
  || Z.eqb (lock_duration_rounds v) 3.

Definition valid_vessel (v : Vessel) : bool := valid_denom v && valid_duration v.

(** The multiplier tables, as the specification reads them. *)
Definition token_multiplier_of (token : string) : Decimal :=
  if String.eqb token "dATOM" then D 13 (-1) else D 16 (-1).

Definition duration_multiplier_of (rounds : Z) : Decimal :=
  if Z.eqb rounds 1 then D 10 (-1)
  else if Z.eqb rounds 2 then D 125 (-2) else D 15 (-1).

(** A loop that collects the results of a body that can raise. *)
Fixpoint mapM {A B : Type} (f : A -> result B) (l : list A) : result (list B) :=
  match l with
  | [] => Ok []
  | x :: l' => do y <- f x; do ys <- mapM f l'; Ok (y :: ys)
  end.

(** The parts of one tribute of one proposal: what each reward function
    adds for it, with the two powers that gate the distribution. *)
Record TributeSplit : Type := {
  ts_hydromancer_power : Decimal;
  ts_total_eligible_power : Decimal;
  ts_protocol : Decimal;
  ts_hydromancer : Decimal;
  ts_direct : list (string * Decimal);
  ts_delegated : list (string * Decimal)
}.

(** [user_reward] of the direct path for one user-controlled vessel. *)
Definition direct_share (protocol_commission_rate total_power : Decimal)
    (tribute : Tribute) (vessel : VesselWithUser) : result (string * Decimal) :=
  do vessel_power <- calculate_voting_power (vu_vessel vessel);
  do user_share <- Dec.div vessel_power total_power;
  Ok (vu_user_id vessel, direct_reward protocol_commission_rate user_share tribute).

(** [user_reward] of the delegated path for one eligible user. *)
Definition delegated_share (residual total_eligible_power : Decimal)
    (entry : string * Decimal) : result (string * Decimal) :=
  do user_share <- Dec.div (snd entry) total_eligible_power;
  Ok (fst entry, Dec.mul residual user_share).

Definition tribute_split (s : Scenario) (p : Proposal) (t : Tribute)
  : result TributeSplit :=
  do pr <- commission_rate (protocol_commission_bps (protocol_config s));
  do hr <- commission_rate (hydromancer_commission_bps (protocol_config s));
  let voted := voters_of s (proposal_id p) in
  do total_power <- sum_power voted Dec.zero;
  do hydromancer_power <- sum_power (filter is_hydromancer voted) Dec.zero;
  do hydromancer_share <- Dec.div hydromancer_power total_power;
  do direct <- mapM (direct_share pr total_power t) (filter is_user voted);
  do eligible <- eligible_users (bid_duration_months p) (user_vessels_by_duration s);
  do delegated <-
    mapM (delegated_share
            (after_hydromancer_commission pr hr hydromancer_share t) (snd eligible))
      (fst eligible);
  Ok {| ts_hydromancer_power := hydromancer_power;
        ts_total_eligible_power := snd eligible;
        ts_protocol := Dec.mul (amount t) pr;
        ts_hydromancer := hydromancer_commission pr hr hydromancer_share t;
        ts_direct := direct;
        ts_delegated := delegated |}.

Definition Rsum (l : list R) : R := fold_right Rplus 0%R l.

Definition shares_value (l : list (string * Decimal)) : R :=
  Rsum (map (fun e => Dec.value (snd e)) l).

(** Everything the calculator hands out for the tribute, as a real number. *)
Definition split_total (sp : TributeSplit) : R :=
  (Dec.value (ts_protocol sp) + Dec.value (ts_hydromancer sp)
   + shares_value (ts_direct sp) + shares_value (ts_delegated sp))%R.

(** The voting power of a vessel as a number (0 where it is not defined). *)
Definition power_value (v : VesselWithUser) : R :=
  match calculate_voting_power (vu_vessel v) with
  | Ok p => value p
  | Err _ => 0%R
  end.

Definition eligible_step (proposal_duration : Z)
    (acc : list (string * Decimal) * Decimal)
    (entry : string * list (Z * list VesselWithUser))
  : result (list (string * Decimal) * Decimal) :=
  let '(eligible_user_power, total_eligible_power) := acc in
  let '(uid, vessels_by_duration) := entry in
  do user_power <- eligible_power_of_user proposal_duration vessels_by_duration;
  if Dec.gt0 user_power then
    Ok (dict_set String.eqb eligible_user_power uid user_power,
        Dec.add total_eligible_power user_power)
  else Ok (eligible_user_power, total_eligible_power).

(** [a <= b] on Decimals, the exact comparison of the two numbers. *)
Definition dec_leb (a b : Decimal) : bool :=
  let e := Z.min (Dec.d_exp a) (Dec.d_exp b) in
  Dec.scoeff a * 10 ^ (Dec.d_exp a - e) <=? Dec.scoeff b * 10 ^ (Dec.d_exp b - e).

(** abs(a) *)
Definition dec_abs (a : Decimal) : Decimal :=
  Dec.mkDecimal false (Dec.d_int a) (Dec.d_exp a).

Definition reward_of (rewards : list (string * Decimal)) (dn : string) : Decimal :=
  dict_get_default String.eqb Dec.zero rewards dn.

(** The two exceptions a Decimal division raises. *)
Definition division_error (e : error) : Prop :=
  e = InvalidOperation \/ e = DivisionByZero.

Definition div_fail {A : Type} (r : result A) : Prop :=
  exists e, r = Err e /\ division_error e.

Definition ok_or_div_fail {A : Type} (r : result A) : Prop :=
  (exists a, r = Ok a) \/ div_fail r.

(** Every vessel grouped for the delegated path is a hydromancer-controlled
    vessel of the scenario. *)
Definition delegated_groups_ok (s : Scenario)
    (acc : list (string * list (Z * list VesselWithUser))) : Prop :=
  forall uid d k l w, In (uid, d) acc -> In (k, l) d -> In w l ->
    exists u, In u (users s) /\ In (vu_vessel w) (vessels u) /\
              controlled_by (vu_vessel w) = "hydromancer"%string.

(** A proposal with another bid duration, everything else as it is. *)
Definition with_bid_duration (p : Proposal) (d : Z) : Proposal :=
  {| proposal_id := proposal_id p;
     bid_duration_months := d;
     tributes := tributes p |}.




(** The same vessel with another locked amount. *)
Definition with_amount (w : VesselWithUser) (a : Decimal) : VesselWithUser :=
  {| vu_vessel :=
       {| vessel_id := vessel_id (vu_vessel w);
          lock_duration_rounds := lock_duration_rounds (vu_vessel w);
          locked_denom := locked_denom (vu_vessel w);
          locked_amount := a;
          controlled_by := controlled_by (vu_vessel w);
          voted_proposal_id := voted_proposal_id (vu_vessel w) |};
     vu_user_id := vu_user_id w |}.

(** The voting power of a vessel in exact arithmetic. *)
Definition exact_power (w : VesselWithUser) : R :=
  (value (locked_amount (vu_vessel w))
   * value (token_multiplier_of (locked_denom (vu_vessel w)))
   * value (duration_multiplier_of (lock_duration_rounds (vu_vessel w))))%R.

Definition exact_total (l : list VesselWithUser) : R := Rsum (map exact_power l).

(** The share of the voting power of [l] that [w] holds, in exact
    arithmetic. *)
Definition exact_share (w : VesselWithUser) (l : list VesselWithUser) : R :=
  (exact_power w / exact_total l)%R.

(** A voter the calculator accepts, with a nonnegative amount. *)
Definition good_voter (w : VesselWithUser) : Prop :=
  valid_vessel (vu_vessel w) = true /\ nonneg (locked_amount (vu_vessel w)).

Definition mk_vessel (id duration : Z) (token : string) (amt : Decimal)
    (controller : string) (vote : option Z) : Vessel :=
  {| vessel_id := id; lock_duration_rounds := duration; locked_denom := token;
     locked_amount := amt; controlled_by := controller;
     voted_proposal_id := vote |}.

Definition no_commission : ProtocolConfig :=
  {| protocol_commission_bps := 0; hydromancer_commission_bps := 0 |}.

Definition one_usdc : Tribute :=
  {| tribute_id := 1; denom := "USDC"; amount := D 1 0 |}.

Definition proposal_one (bid : Z) : Proposal :=
  {| proposal_id := 1; bid_duration_months := bid; tributes := [one_usdc] |}.

(** Three vessels of the same power on one proposal, one of them delegated:
    each third of the tribute is 0.3333333333333333333333333333. *)
Definition thirds_scenario : Scenario := {|
  protocol_config := no_commission;
  users := [
    {| user_id := "A";
       vessels := [mk_vessel 1 1 "dATOM" (D 1 0) "hydromancer" (Some 1)] |};
    {| user_id := "B";
       vessels := [mk_vessel 2 1 "dATOM" (D 1 0) "user" (Some 1)] |};
    {| user_id := "C";
       vessels := [mk_vessel 3 1 "dATOM" (D 1 0) "user" (Some 1)] |} ];
  proposals := [proposal_one 1]
|}.

(** A vessel of an unknown token and an unknown duration that cast no vote
    and is controlled by its user. *)
Definition unvoted_invalid_scenario : Scenario := {|
  protocol_config := no_commission;
  users := [
    {| user_id := "A";
       vessels := [mk_vessel 1 4 "NTRN" (D 1 0) "user" None] |} ];
  proposals := [proposal_one 1]
|}.

Definition voted_invalid_scenario : Scenario := {|
  protocol_config := no_commission;
  users := [
    {| user_id := "A";
       vessels := [mk_vessel 1 4 "NTRN" (D 1 0) "user" (Some 1)] |} ];
  proposals := [proposal_one 1]
|}.

(** The sample scenario with a second proposal nobody voted for. *)
Definition idle_proposal : Proposal :=
  {| proposal_id := 2; bid_duration_months := 1;
     tributes := [{| tribute_id := 3; denom := "NTRN"; amount := D 700 0 |}] |}.

Definition sample_with_idle_proposal : Scenario :=
  with_proposals sample_scenario (proposals sample_scenario ++ [idle_proposal]).

(** A proposal whose only voter locked nothing. *)
Definition zero_power_scenario : Scenario := {|
  protocol_config := no_commission;
  users := [
    {| user_id := "A";
       vessels := [mk_vessel 1 1 "dATOM" (D 0 0) "user" (Some 1)] |} ];
  proposals := [proposal_one 1]
|}.

(** The hydromancer votes with a vessel locked for one round on a proposal
    that asks for two: nobody is eligible for the residual. *)
Definition short_lock_scenario : Scenario := {|
  protocol_config := {| protocol_commission_bps := 1000;
                        hydromancer_commission_bps := 500 |};
  users := [
    {| user_id := "A";
       vessels := [mk_vessel 1 1 "dATOM" (D 100 0) "hydromancer" (Some 1)] |};
    {| user_id := "B";
       vessels := [mk_vessel 2 1 "stATOM" (D 50 0) "user" (Some 1)] |} ];
  proposals := [proposal_one 2]
|}.

(** One proposal whose only voter is controlled by the hydromancer. *)
Definition delegated_only_scenario : Scenario := {|
  protocol_config := {| protocol_commission_bps := 1000;
                        hydromancer_commission_bps := 500 |};
  users := [
    {| user_id := "A";
       vessels := [mk_vessel 1 1 "dATOM" (D 100 0) "hydromancer" (Some 1)] |} ];
  proposals := [proposal_one 1]
|}.


(** One user-controlled vessel alone on the proposal. *)
Definition sole_voter_scenario (amt : Decimal) : Scenario := {|
  protocol_config := no_commission;
  users := [
    {| user_id := "A";
       vessels := [mk_vessel 1 1 "dATOM" amt "user" (Some 1)] |} ];
  proposals := [proposal_one 1]
|}.

(** The hydromancer votes with A's vessel; B delegated a larger vessel that
    does not vote; C votes directly. *)
Definition crowd_scenario (amt : Decimal) : Scenario := {|
  protocol_config := no_commission;
  users := [
    {| user_id := "A";
       vessels := [mk_vessel 1 1 "dATOM" amt "hydromancer" (Some 1)] |};
    {| user_id := "B";
       vessels := [mk_vessel 2 1 "dATOM" (D 100 0) "hydromancer" None] |};
    {| user_id := "C";
       vessels := [mk_vessel 3 1 "dATOM" (D 100 0) "user" (Some 1)] |} ];
  proposals := [proposal_one 1]
|}.

Definition voter_a : VesselWithUser :=
  {| vu_vessel := mk_vessel 1 1 "dATOM" (D 100 0) "user" (Some 1); vu_user_id := "A" |}.

Definition voter_b : VesselWithUser :=
  {| vu_vessel := mk_vessel 2 1 "dATOM" (D 100 0) "user" (Some 1); vu_user_id := "B" |}.

(** * Properties *)

(** ** Decimal arithmetic *)

Module DecFacts.
Import Dec.

Lemma pow10_pos (k : Z) : 0 <= k -> 0 < 10 ^ k.
Proof. intros; apply Z.pow_pos_nonneg; lia. Qed.

Lemma ndigits_aux_spec (fuel : nat) (c : Z) :
  0 <= c < 2 ^ Z.of_nat fuel ->
  1 <= ndigits_aux fuel c /\
  c < 10 ^ ndigits_aux fuel c /\
  (0 < c -> 10 ^ (ndigits_aux fuel c - 1) <= c).
Proof.
  revert c; induction fuel as [|f IH]; intros c Hc.
  - simpl in *. assert (c = 0) by lia. subst. repeat split; lia.
  - cbn [ndigits_aux]. destruct (c <? 10) eqn:E.
    + apply Z.ltb_lt in E. repeat split; simpl; lia.
    + apply Z.ltb_ge in E.
      assert (Hq : 0 <= c / 10 < 2 ^ Z.of_nat f).
      { split; [apply Z.div_pos; lia|].
        rewrite Nat2Z.inj_succ, Z.pow_succ_r in Hc by lia.
        apply Z.div_lt_upper_bound; lia. }
      destruct (IH _ Hq) as (H1 & H2 & H3).
      assert (0 < c / 10) by (apply Z.div_str_pos; lia).
      specialize (H3 H).
      set (n := ndigits_aux f (c / 10)) in *.
      replace (1 + n - 1) with (Z.succ (n - 1)) by lia.
      replace (1 + n) with (Z.succ n) by lia.
      rewrite !Z.pow_succ_r by lia.
      pose proof (Z.div_mod c 10 ltac:(lia)).
      pose proof (Z.mod_pos_bound c 10 ltac:(lia)).
      repeat split; lia.
Qed.

Lemma ndigits_spec (c : Z) :
  0 <= c ->
  1 <= ndigits c /\ c < 10 ^ ndigits c /\ (0 < c -> 10 ^ (ndigits c - 1) <= c).
Proof.
  intros Hc. unfold ndigits. apply ndigits_aux_spec. split; [assumption|].
  destruct (Z.eq_dec c 0) as [->|Hne].
  - simpl. lia.
  - rewrite Nat2Z.inj_succ, Z2Nat.id by apply Z.log2_nonneg.
    apply Z.log2_spec; lia.
Qed.

Lemma ndigits_0 : ndigits 0 = 1.
Proof. reflexivity. Qed.

(** The number of digits is monotone and determined by the bounds. *)
Lemma ndigits_le_iff (c n : Z) : 0 <= c -> 1 <= n -> (ndigits c <= n <-> c < 10 ^ n).
Proof.
  intros Hc Hn. destruct (ndigits_spec c Hc) as (H1 & H2 & H3). split; intros H.
  - eapply Z.lt_le_trans; [exact H2|]. apply Z.pow_le_mono_r; lia.
  - destruct (Z.eq_dec c 0) as [->|Hne]; [rewrite ndigits_0; lia|].
    specialize (H3 ltac:(lia)).
    destruct (Z_lt_le_dec n (ndigits c)) as [Hlt|]; [|assumption].
    exfalso. assert (10 ^ n <= 10 ^ (ndigits c - 1)) by (apply Z.pow_le_mono_r; lia).
    lia.
Qed.

Lemma round_half_even_spec (c k : Z) :
  0 <= c -> 0 < k ->
  let q := round_half_even c k in
  c / 10 ^ k <= q <= c / 10 ^ k + 1 /\ 2 * Z.abs (q * 10 ^ k - c) <= 10 ^ k.
Proof.
  intros Hc Hk q. subst q. unfold round_half_even.
  assert (HP : 0 < 10 ^ k) by (apply pow10_pos; lia).
  assert (Hhalf : 2 * (5 * 10 ^ (k - 1)) = 10 ^ k).
  { replace k with (Z.succ (k - 1)) at 2 by lia. rewrite Z.pow_succ_r by lia. lia. }
  pose proof (Z.div_mod c (10 ^ k) ltac:(lia)) as Hdm.
  pose proof (Z.mod_pos_bound c (10 ^ k) HP) as Hmod.
  set (q0 := c / 10 ^ k) in *. set (r := c mod 10 ^ k) in *.
  set (half := 5 * 10 ^ (k - 1)) in *.
  destruct ((half <? r) || ((r =? half) && Z.odd q0)) eqn:E.
  - assert (half <= r).
    { apply orb_prop in E. destruct E as [E|E].
      - apply Z.ltb_lt in E; lia.
      - apply andb_prop in E. destruct E as [E _]. apply Z.eqb_eq in E; lia. }
    split; [lia|]. nia.
  - apply orb_false_elim in E. destruct E as [E _]. apply Z.ltb_ge in E.
    split; [lia|]. nia.
Qed.

Lemma coeff_nonneg (d : Decimal) : 0 <= coeff d.
Proof. unfold coeff; lia. Qed.

Lemma coeff_mk s c e : 0 <= c -> coeff (mkDecimal s (Z.to_N c) e) = c.
Proof. intros; unfold coeff; simpl; lia. Qed.

(** What _fix does to a coefficient c >= 0: the exponent grows by the number
    [j] of digits dropped, and the new coefficient, scaled back, is within
    the relative distance 1 / (2 * 10^(prec-1)) of c, on either side. *)
Lemma fix_spec (s : bool) (c e : Z) :
  0 <= c ->
  let d := fix_ s c e in
  d_sign d = s /\ coeff d < 10 ^ prec /\
  exists j, 0 <= j /\ d_exp d = e + j /\
            2 * 10 ^ (prec - 1) * Z.abs (coeff d * 10 ^ j - c) <= c /\
            2 * 10 ^ (prec - 1) * Z.abs (coeff d * 10 ^ j - c) <= coeff d * 10 ^ j /\
            (j = 0 -> coeff d = c).
Proof.
  intros Hc d. subst d. unfold fix_.
  destruct (ndigits_spec c Hc) as (Hn1 & Hn2 & Hn3).
  assert (Hp1 : 10 ^ prec = 10 * 10 ^ (prec - 1)) by reflexivity.
  assert (Hp0 : 0 < 10 ^ (prec - 1)) by (apply pow10_pos; unfold prec; lia).
  destruct (ndigits c - prec <=? 0) eqn:Ek.
  - apply Z.leb_le in Ek. cbn [d_sign d_exp]. rewrite coeff_mk by assumption.
    split; [reflexivity|]. split.
    + apply (ndigits_le_iff c prec Hc); unfold prec in *; lia.
    + exists 0. rewrite Z.pow_0_r.
      replace (c * 1 - c) with 0 by ring. simpl Z.abs. rewrite Z.mul_0_r.
      repeat split; lia.
  - apply Z.leb_gt in Ek. set (k := ndigits c - prec) in *.
    assert (Hcpos : 0 < c).
    { destruct (Z.eq_dec c 0) as [->|]; [|lia].
      unfold k in Ek. rewrite ndigits_0 in Ek. unfold prec in *. lia. }
    specialize (Hn3 Hcpos).
    destruct (round_half_even_spec c k Hc Ek) as [Hq Hnear].
    set (q := round_half_even c k) in *.
    assert (HP : 0 < 10 ^ k) by (apply pow10_pos; lia).
    assert (Hlen : ndigits c = prec + k) by (unfold k; lia).
    assert (Hlo : 10 ^ (prec - 1) * 10 ^ k <= c).
    { rewrite <- Z.pow_add_r by (unfold prec; lia).
      replace (prec - 1 + k) with (ndigits c - 1) by lia. assumption. }
    assert (Hhi : c < 10 ^ prec * 10 ^ k).
    { rewrite <- Z.pow_add_r by (unfold prec; lia). rewrite <- Hlen. assumption. }
    assert (Hq0lo : 10 ^ (prec - 1) <= c / 10 ^ k).
    { apply Z.div_le_lower_bound; lia. }
    assert (Hq0hi : c / 10 ^ k < 10 ^ prec).
    { apply Z.div_lt_upper_bound; lia. }
    assert (Hqk : 10 ^ (prec - 1) * 10 ^ k <= q * 10 ^ k).
    { apply Z.mul_le_mono_nonneg_r; lia. }
    assert (Hn' : 2 * 10 ^ (prec - 1) * Z.abs (q * 10 ^ k - c)
                  <= 10 ^ (prec - 1) * 10 ^ k).
    { replace (2 * 10 ^ (prec - 1) * Z.abs (q * 10 ^ k - c))
        with (10 ^ (prec - 1) * (2 * Z.abs (q * 10 ^ k - c))) by ring.
      apply Z.mul_le_mono_nonneg_l; lia. }
    destruct (q =? 10 ^ prec) eqn:Eq.
    + apply Z.eqb_eq in Eq. cbn [d_sign d_exp].
      rewrite coeff_mk by lia.
      split; [reflexivity|]. split; [lia|].
      exists (k + 1). split; [lia|]. split; [lia|].
      rewrite Z.pow_add_r, Z.pow_1_r by lia.
      replace (10 ^ (prec - 1) * (10 ^ k * 10)) with (q * 10 ^ k)
        by (rewrite Eq, Hp1; ring).
      repeat split; lia.
    + apply Z.eqb_neq in Eq. cbn [d_sign d_exp].
      rewrite coeff_mk by lia.
      split; [reflexivity|]. split; [lia|].
      exists k. repeat split; lia.
Qed.

(** Nothing is rounded when the coefficient has at most [prec] digits. *)
Lemma fix_exact (s : bool) (c e : Z) :
  0 <= c -> c < 10 ^ prec -> fix_ s c e = mkDecimal s (Z.to_N c) e.
Proof.
  intros Hc Hlt. unfold fix_.
  assert (ndigits c <= prec)
    by (apply ndigits_le_iff; [assumption|unfold prec; lia|assumption]).
  destruct (ndigits c - prec <=? 0) eqn:E; [reflexivity|].
  apply Z.leb_gt in E; lia.
Qed.

Lemma fix_zero_iff (s : bool) (c e : Z) :
  0 <= c -> (coeff (fix_ s c e) = 0 <-> c = 0).
Proof.
  intros Hc. destruct (fix_spec s c e Hc) as (_ & _ & j & Hj & _ & Hn1 & Hn2 & _).
  assert (0 < 10 ^ (prec - 1)) by (apply pow10_pos; unfold prec; lia).
  assert (0 < 10 ^ j) by (apply pow10_pos; lia).
  pose proof (coeff_nonneg (fix_ s c e)).
  split; intros H2.
  - rewrite H2 in Hn1. replace (Z.abs (0 * 10 ^ j - c)) with c in Hn1 by lia.
    assert (1 * c <= 10 ^ (prec - 1) * c) by (apply Z.mul_le_mono_nonneg_r; lia).
    lia.
  - subst c. rewrite Z.sub_0_r in Hn2.
    set (C := coeff (fix_ s 0 e) * 10 ^ j) in *.
    assert (0 <= C) by (apply Z.mul_nonneg_nonneg; lia).
    replace (Z.abs C) with C in Hn2 by lia.
    assert (1 * C <= 10 ^ (prec - 1) * C) by (apply Z.mul_le_mono_nonneg_r; lia).
    assert (HC : C = 0) by lia. unfold C in HC.
    apply Z.mul_eq_0 in HC. destruct HC; lia.
Qed.

(** *** Real values *)

Local Open Scope R_scope.

Lemma p10_pos (e : Z) : 0 < p10 e.
Proof. apply powerRZ_lt; lra. Qed.

Lemma p10_add (a b : Z) : p10 (a + b) = p10 a * p10 b.
Proof. apply powerRZ_add; lra. Qed.

Lemma p10_0 : p10 0 = 1.
Proof. reflexivity. Qed.

Lemma p10_IZR (k : Z) : (0 <= k)%Z -> p10 k = IZR (10 ^ k).
Proof.
  intros Hk. unfold p10. rewrite <- (Z2Nat.id k Hk) at 1.
  rewrite <- pow_powerRZ, pow_IZR, Z2Nat.id by assumption. reflexivity.
Qed.

Lemma u_pos : 0 < u.
Proof. unfold u. apply Rinv_0_lt_compat. apply IZR_lt. reflexivity. Qed.

Lemma u_spec : u * IZR (2 * 10 ^ (prec - 1)) = 1.
Proof. unfold u. apply Rinv_l. apply not_0_IZR. discriminate. Qed.

Lemma E_pow_ge1 (k : nat) : 1 <= (1 + u) ^ k.
Proof. apply pow_R1_Rle. pose proof u_pos; lra. Qed.

Lemma E_pow_mono (k m : nat) : (k <= m)%nat -> (1 + u) ^ k <= (1 + u) ^ m.
Proof. intros; apply Rle_pow; [pose proof u_pos; lra|assumption]. Qed.

(** The integer form of one rounding step. *)
Lemma near_of_Z (c C : Z) :
  (0 <= c)%Z -> (0 <= C)%Z ->
  (2 * 10 ^ (prec - 1) * Z.abs (C - c) <= c)%Z ->
  (2 * 10 ^ (prec - 1) * Z.abs (C - c) <= C)%Z ->
  IZR c <= (1 + u) * IZR C /\ IZR C <= (1 + u) * IZR c.
Proof.
  intros Hc HC H1 H2.
  pose proof u_spec as Hu. pose proof u_pos as Hup.
  set (P := (2 * 10 ^ (prec - 1))%Z) in *.
  assert (HP : (0 < P)%Z) by reflexivity.
  assert (A1 : (P * (c - C) <= C)%Z) by nia.
  assert (A2 : (P * (C - c) <= c)%Z) by nia.
  apply IZR_le in A1, A2, Hc, HC. rewrite mult_IZR, minus_IZR in A1, A2.
  assert (B1 : u * (IZR P * (IZR c - IZR C)) <= u * IZR C)
    by (apply Rmult_le_compat_l; lra).
  assert (B2 : u * (IZR P * (IZR C - IZR c)) <= u * IZR c)
    by (apply Rmult_le_compat_l; lra).
  rewrite <- Rmult_assoc, Hu in B1, B2. lra.
Qed.

Lemma value_nonneg (d : Decimal) :
  nonneg d -> value d = IZR (coeff d) * p10 (d_exp d).
Proof. unfold nonneg, value, scoeff. intros ->; reflexivity. Qed.

Lemma value_ge0 (d : Decimal) : nonneg d -> 0 <= value d.
Proof.
  intros H. rewrite value_nonneg by assumption.
  apply Rmult_le_pos; [apply IZR_le, coeff_nonneg|apply Rlt_le, p10_pos].
Qed.

(** One call of _fix is one rounding. *)
Lemma fix_approx (c e : Z) :
  (0 <= c)%Z ->
  nonneg (fix_ false c e) /\
  approx 1 (value (fix_ false c e)) (IZR c * p10 e).
Proof.
  intros Hc.
  destruct (fix_spec false c e Hc) as (Hs & _ & j & Hj & He & Hn1 & Hn2 & _).
  split; [exact Hs|].
  assert (Hv : value (fix_ false c e) =
               IZR (coeff (fix_ false c e) * 10 ^ j) * p10 e).
  { rewrite value_nonneg by exact Hs. rewrite He, p10_add, mult_IZR.
    rewrite (p10_IZR j Hj). ring. }
  pose proof (coeff_nonneg (fix_ false c e)) as Hcn.
  assert (HC : (0 <= coeff (fix_ false c e) * 10 ^ j)%Z).
  { apply Z.mul_nonneg_nonneg; [assumption|apply Z.lt_le_incl, pow10_pos; assumption]. }
  destruct (near_of_Z c _ Hc HC Hn1 Hn2) as [N1 N2].
  pose proof (p10_pos e) as Hp.
  unfold approx. rewrite Hv. simpl pow. rewrite Rmult_1_r.
  repeat split.
  - apply Rmult_le_pos; [apply IZR_le; assumption|lra].
  - apply Rmult_le_pos; [apply IZR_le; assumption|lra].
  - rewrite <- Rmult_assoc. apply Rmult_le_compat_r; lra.
  - rewrite <- Rmult_assoc. apply Rmult_le_compat_r; lra.
Qed.

(** *** The calculus of relative errors *)

Lemma E_pow_pos (k : nat) : 0 < (1 + u) ^ k.
Proof. pose proof (E_pow_ge1 k); lra. Qed.

Lemma approx_refl (x : R) : 0 <= x -> approx 0 x x.
Proof. intros; unfold approx; simpl; repeat split; lra. Qed.

Lemma approx_weaken (k m : nat) (a b : R) :
  (k <= m)%nat -> approx k a b -> approx m a b.
Proof.
  intros Hkm (Ha & Hb & H1 & H2). pose proof (E_pow_mono k m Hkm) as HE.
  repeat split; try assumption.
  - eapply Rle_trans; [exact H1|]. apply Rmult_le_compat_r; assumption.
  - eapply Rle_trans; [exact H2|]. apply Rmult_le_compat_r; assumption.
Qed.

Lemma approx_trans (k m : nat) (a b c : R) :
  approx k a b -> approx m b c -> approx (k + m) a c.
Proof.
  intros (Ha & Hb & H1 & H2) (_ & Hc & H3 & H4).
  pose proof (E_pow_pos k) as Ek. pose proof (E_pow_pos m) as Em.
  repeat split; try assumption; rewrite pow_add.
  - eapply Rle_trans; [exact H3|].
    replace ((1 + u) ^ k * (1 + u) ^ m * a) with ((1 + u) ^ m * ((1 + u) ^ k * a)) by ring.
    apply Rmult_le_compat_l; lra.
  - eapply Rle_trans; [exact H2|].
    rewrite Rmult_assoc. apply Rmult_le_compat_l; lra.
Qed.

Lemma approx_mul (k m : nat) (a a' b b' : R) :
  approx k a a' -> approx m b b' -> approx (k + m) (a * b) (a' * b').
Proof.
  intros (Ha & Ha' & H1 & H2) (Hb & Hb' & H3 & H4).
  pose proof (E_pow_pos k) as Ek. pose proof (E_pow_pos m) as Em.
  repeat split; try (apply Rmult_le_pos; assumption); rewrite pow_add.
  - replace ((1 + u) ^ k * (1 + u) ^ m * (a * b))
      with (((1 + u) ^ k * a) * ((1 + u) ^ m * b)) by ring.
    apply Rmult_le_compat; assumption.
  - replace ((1 + u) ^ k * (1 + u) ^ m * (a' * b'))
      with (((1 + u) ^ k * a') * ((1 + u) ^ m * b')) by ring.
    apply Rmult_le_compat; assumption.
Qed.

Lemma approx_add (k : nat) (a a' b b' : R) :
  approx k a a' -> approx k b b' -> approx k (a + b) (a' + b').
Proof.
  intros (Ha & Ha' & H1 & H2) (Hb & Hb' & H3 & H4).
  repeat split; try lra; rewrite Rmult_plus_distr_l; lra.
Qed.

Lemma approx_div (k m : nat) (a a' b b' : R) :
  approx k a a' -> approx m b b' -> 0 < b -> 0 < b' ->
  approx (k + m) (a / b) (a' / b').
Proof.
  intros Ha (Hb & Hb' & H3 & H4) Hbp Hbp'.
  unfold Rdiv. apply approx_mul; [assumption|].
  pose proof (E_pow_pos m) as Em.
  assert (0 < / b) by (apply Rinv_0_lt_compat; assumption).
  assert (0 < / b') by (apply Rinv_0_lt_compat; assumption).
  repeat split; try lra.
  - apply (Rmult_le_reg_r (b * b')); [apply Rmult_lt_0_compat; assumption|].
    replace (/ b' * (b * b')) with b by (field; lra).
    replace ((1 + u) ^ m * / b * (b * b')) with ((1 + u) ^ m * b') by (field; lra).
    assumption.
  - apply (Rmult_le_reg_r (b * b')); [apply Rmult_lt_0_compat; assumption|].
    replace (/ b * (b * b')) with b' by (field; lra).
    replace ((1 + u) ^ m * / b' * (b * b')) with ((1 + u) ^ m * b) by (field; lra).
    assumption.
Qed.

Lemma approx_zero_iff (k : nat) (a b : R) : approx k a b -> (a = 0 <-> b = 0).
Proof.
  intros (Ha & Hb & H1 & H2). split; intros ->; rewrite Rmult_0_r in *; lra.
Qed.

Lemma approx_pos (k : nat) (a b : R) : approx k a b -> 0 < b -> 0 < a.
Proof.
  intros H Hb. destruct (Req_dec a 0) as [Ha|Ha].
  - apply (approx_zero_iff k a b H) in Ha. lra.
  - destruct H as (H & _); lra.
Qed.

(** *** The operations *)

Lemma mul_approx (a b : Decimal) :
  nonneg a -> nonneg b ->
  nonneg (mul a b) /\ approx 1 (value (mul a b)) (value a * value b).
Proof.
  intros Ha Hb. unfold mul. rewrite Ha, Hb. cbn [xorb].
  assert (Hc : (0 <= coeff a * coeff b)%Z)
    by (apply Z.mul_nonneg_nonneg; apply coeff_nonneg).
  destruct (fix_approx (coeff a * coeff b) (d_exp a + d_exp b) Hc) as [Hs Hx].
  split; [exact Hs|].
  replace (value a * value b)
    with (IZR (coeff a * coeff b) * p10 (d_exp a + d_exp b)); [exact Hx|].
  rewrite (value_nonneg a Ha), (value_nonneg b Hb), mult_IZR, p10_add. ring.
Qed.

Lemma scale_value (c e e0 : Z) :
  (e0 <= e)%Z -> IZR (c * 10 ^ (e - e0)) * p10 e0 = IZR c * p10 e.
Proof.
  intros H. rewrite mult_IZR, <- p10_IZR by lia.
  replace e with ((e - e0) + e0)%Z at 2 by lia. rewrite p10_add. ring.
Qed.

Lemma add_approx (a b : Decimal) :
  nonneg a -> nonneg b ->
  nonneg (add a b) /\ approx 1 (value (add a b)) (value a + value b).
Proof.
  intros Ha Hb. unfold add, scoeff. rewrite Ha, Hb.
  set (e := Z.min (d_exp a) (d_exp b)).
  set (z := (coeff a * 10 ^ (d_exp a - e) + coeff b * 10 ^ (d_exp b - e))%Z).
  assert (Hz : (0 <= z)%Z).
  { unfold z. pose proof (coeff_nonneg a). pose proof (coeff_nonneg b).
    assert (0 < 10 ^ (d_exp a - e))%Z by (apply pow10_pos; unfold e; lia).
    assert (0 < 10 ^ (d_exp b - e))%Z by (apply pow10_pos; unfold e; lia).
    nia. }
  assert (Hs : (if (z =? 0)%Z then is_zero a && is_zero b && false && false
                else (z <? 0)%Z) = false).
  { destruct (z =? 0)%Z; [rewrite !andb_false_r; reflexivity|].
    apply Z.ltb_ge; assumption. }
  rewrite Hs, Z.abs_eq by assumption.
  destruct (fix_approx z e Hz) as [Hn Hx]. split; [exact Hn|].
  replace (value a + value b) with (IZR z * p10 e); [exact Hx|].
  unfold z. rewrite plus_IZR, Rmult_plus_distr_r.
  rewrite !scale_value by (unfold e; lia).
  rewrite (value_nonneg a Ha), (value_nonneg b Hb). reflexivity.
Qed.

Lemma p10_opp (e : Z) : p10 (- e) = / p10 e.
Proof.
  pose proof (p10_pos e). apply (Rmult_eq_reg_l (p10 e)); [|lra].
  rewrite <- p10_add, Z.add_opp_diag_r, p10_0. field; lra.
Qed.

Lemma p10_sub (a b : Z) : p10 (a - b) = p10 a / p10 b.
Proof. unfold Z.sub, Rdiv. rewrite p10_add, p10_opp. reflexivity. Qed.

Lemma strip_zeros_spec (fuel : nat) (c e ideal : Z) :
  (0 <= c)%Z ->
  let r := strip_zeros fuel c e ideal in
  (0 <= fst r)%Z /\ (e <= snd r)%Z /\ (c = fst r * 10 ^ (snd r - e))%Z.
Proof.
  revert c e; induction fuel as [|f IH]; intros c e Hc; cbn [strip_zeros].
  - simpl. rewrite Z.sub_diag, Z.pow_0_r. repeat split; lia.
  - destruct ((e <? ideal)%Z && (c mod 10 =? 0)%Z) eqn:E.
    + apply andb_prop in E. destruct E as [_ E]. apply Z.eqb_eq in E.
      assert (Hq : (0 <= c / 10)%Z) by (apply Z.div_pos; lia).
      destruct (IH (c / 10)%Z (e + 1)%Z Hq) as (H1 & H2 & H3).
      set (r := strip_zeros f (c / 10) (e + 1) ideal) in *.
      repeat split; [assumption|lia|].
      replace (snd r - e)%Z with (Z.succ (snd r - (e + 1))) by lia.
      rewrite Z.pow_succ_r by lia.
      pose proof (Z.div_mod c 10 ltac:(lia)). nia.
    + simpl. rewrite Z.sub_diag, Z.pow_0_r. repeat split; lia.
Qed.

(** The operands of the integer division of __truediv__: the quotient has
    more than [prec] digits. *)
Lemma div_operands (ca cb : Z) :
  (0 < ca)%Z -> (0 < cb)%Z ->
  let shift := (ndigits cb - ndigits ca + prec + 1)%Z in
  let n := if (0 <=? shift)%Z then (ca * 10 ^ shift)%Z else ca in
  let m := if (0 <=? shift)%Z then cb else (cb * 10 ^ (- shift))%Z in
  (0 < m)%Z /\ (10 ^ prec * m <= n)%Z /\
  IZR n / IZR m = IZR ca / IZR cb * p10 shift.
Proof.
  intros Ha Hb shift n m.
  destruct (ndigits_spec ca ltac:(lia)) as (La & Ua & Ba).
  destruct (ndigits_spec cb ltac:(lia)) as (Lb & Ub & Bb).
  specialize (Ba Ha). specialize (Bb Hb).
  assert (Hca : IZR ca <> 0) by (apply not_0_IZR; lia).
  assert (Hcb : IZR cb <> 0) by (apply not_0_IZR; lia).
  subst n m. destruct (0 <=? shift)%Z eqn:Es.
  - apply Z.leb_le in Es.
    assert (HP : (0 < 10 ^ shift)%Z) by (apply pow10_pos; assumption).
    split; [assumption|]. split.
    + assert (H1 : (10 ^ prec * cb <= 10 ^ prec * 10 ^ ndigits cb)%Z)
        by (apply Z.mul_le_mono_nonneg_l; [apply Z.lt_le_incl, pow10_pos; unfold prec|]; lia).
      assert (H2 : (10 ^ (ndigits ca - 1) * 10 ^ shift <= ca * 10 ^ shift)%Z)
        by (apply Z.mul_le_mono_nonneg_r; lia).
      rewrite <- Z.pow_add_r in H1, H2 by (unfold prec; lia).
      replace (ndigits ca - 1 + shift)%Z with (prec + ndigits cb)%Z in H2
        by (unfold shift; lia).
      lia.
    + rewrite mult_IZR, <- p10_IZR by assumption. field. assumption.
  - apply Z.leb_gt in Es.
    assert (HP : (0 < 10 ^ (- shift))%Z) by (apply pow10_pos; lia).
    split; [nia|]. split.
    + assert (H1 : (cb * 10 ^ (- shift) <= 10 ^ ndigits cb * 10 ^ (- shift))%Z)
        by (apply Z.mul_le_mono_nonneg_r; lia).
      assert (H2 : (10 ^ prec * (cb * 10 ^ (- shift))
                    <= 10 ^ prec * (10 ^ ndigits cb * 10 ^ (- shift)))%Z)
        by (apply Z.mul_le_mono_nonneg_l;
            [apply Z.lt_le_incl, pow10_pos; unfold prec; lia|assumption]).
      rewrite <- !Z.pow_add_r in H2 by (unfold prec; lia).
      replace (prec + (ndigits cb + - shift))%Z with (ndigits ca - 1)%Z in H2
        by (unfold shift; lia).
      lia.
    + rewrite mult_IZR, <- p10_IZR by lia. rewrite p10_opp.
      pose proof (p10_pos shift). field. split; [assumption|lra].
Qed.

Lemma is_zero_coeff (d : Decimal) : is_zero d = true <-> coeff d = 0%Z.
Proof. unfold is_zero, coeff. rewrite N.eqb_eq. lia. Qed.

Lemma is_zero_false_coeff (d : Decimal) : is_zero d = false <-> (0 < coeff d)%Z.
Proof.
  pose proof (is_zero_coeff d). pose proof (coeff_nonneg d).
  destruct (is_zero d).
  - split; [discriminate|]. intros. assert (coeff d = 0%Z) by (apply H; reflexivity). lia.
  - split; [|reflexivity]. intros _.
    destruct (Z.eq_dec (coeff d) 0) as [E|E]; [|lia].
    apply H in E; discriminate.
Qed.

Lemma value_zero (d : Decimal) : nonneg d -> (value d = 0 <-> coeff d = 0%Z).
Proof.
  intros Hn. rewrite value_nonneg by assumption. pose proof (p10_pos (d_exp d)).
  split.
  - intros H0. apply Rmult_integral in H0. destruct H0 as [H0|H0]; [|lra].
    apply eq_IZR in H0; assumption.
  - intros ->. ring.
Qed.

Lemma value_pos (d : Decimal) : nonneg d -> is_zero d = false -> 0 < value d.
Proof.
  intros Hn Hz. apply is_zero_false_coeff in Hz.
  rewrite value_nonneg by assumption.
  apply Rmult_lt_0_compat; [apply IZR_lt; assumption|apply p10_pos].
Qed.

Lemma u_big : 1 <= u * IZR (10 ^ prec).
Proof.
  pose proof u_spec as Hus.
  assert (H : (10 ^ prec = 5 * (2 * 10 ^ (prec - 1)))%Z) by (vm_compute; reflexivity).
  rewrite H, mult_IZR.
  rewrite <- Rmult_assoc, (Rmult_comm u (IZR 5)), Rmult_assoc, Hus.
  rewrite Rmult_1_r. apply (IZR_le 1 5). discriminate.
Qed.

(** A quotient of more than [prec] digits and its integer part, or the
    integer above, are one rounding apart. *)
Lemma near_quotient (B q q' Q : R) :
  1 <= u * B -> B <= q -> q <= q' <= q + 1 -> q <= Q <= q + 1 ->
  0 <= q' /\ 0 <= Q /\ Q <= (1 + u) * q' /\ q' <= (1 + u) * Q.
Proof.
  intros HB Hq Hq' HQ. pose proof u_pos as Hu.
  assert (0 < B) by nra.
  assert (1 <= u * q) by nra.
  repeat split; nra.
Qed.

(** A division is at most two roundings away from the exact quotient. *)
Lemma div_nz_approx (a b : Decimal) :
  nonneg a -> nonneg b -> is_zero b = false ->
  nonneg (div_nz a b) /\ approx 2 (value (div_nz a b)) (value a / value b).
Proof.
  intros Ha Hb Hbz. unfold div_nz. rewrite Ha, Hb. cbn [xorb].
  pose proof (value_pos b Hb Hbz) as Hvb.
  destruct (is_zero a) eqn:Eaz.
  - apply is_zero_coeff in Eaz.
    destruct (fix_approx 0 (d_exp a - d_exp b) ltac:(lia)) as [Hs Hx].
    split; [exact Hs|].
    replace (value a / value b) with (IZR 0 * p10 (d_exp a - d_exp b)).
    + apply (approx_weaken 1 2); [lia|exact Hx].
    + rewrite (proj2 (value_zero a Ha) Eaz). unfold Rdiv. ring.
  - apply is_zero_false_coeff in Eaz. apply is_zero_false_coeff in Hbz.
    destruct (div_operands (coeff a) (coeff b) Eaz Hbz) as (Hm & Hbig & Hquot).
    set (shift := (ndigits (coeff b) - ndigits (coeff a) + prec + 1)%Z) in *.
    set (n := if (0 <=? shift)%Z then (coeff a * 10 ^ shift)%Z else coeff a) in *.
    set (m := if (0 <=? shift)%Z then coeff b else (coeff b * 10 ^ (- shift))%Z) in *.
    set (e := (d_exp a - d_exp b - shift)%Z).
    assert (Hval : value a / value b = IZR n / IZR m * p10 e).
    { rewrite Hquot, (value_nonneg a Ha), (value_nonneg b Hb).
      unfold e. rewrite !p10_sub.
      pose proof (p10_pos (d_exp a)). pose proof (p10_pos (d_exp b)).
      pose proof (p10_pos shift).
      assert (IZR (coeff b) <> 0) by (apply not_0_IZR; lia).
      field. repeat split; lra. }
    pose proof (Z.div_mod n m ltac:(lia)) as Hdm.
    pose proof (Z.mod_pos_bound n m Hm) as Hmod.
    assert (Hq28 : (10 ^ prec <= n / m)%Z) by (apply Z.div_le_lower_bound; lia).
    assert (HmR : 0 < IZR m) by (apply IZR_lt; assumption).
    destruct (n mod m =? 0)%Z eqn:Er.
    + apply Z.eqb_eq in Er.
      pose proof (strip_zeros_spec (Z.to_nat (ndigits (n / m))) (n / m) e
                    (d_exp a - d_exp b) ltac:(lia)) as (S1 & S2 & S3).
      destruct (strip_zeros (Z.to_nat (ndigits (n / m))) (n / m) e
                  (d_exp a - d_exp b)) as [q' e'] eqn:Es.
      cbn [fst snd] in *.
      destruct (fix_approx q' e' S1) as [Hs Hx]. split; [exact Hs|].
      apply (approx_weaken 1 2); [lia|].
      replace (value a / value b) with (IZR q' * p10 e'); [exact Hx|].
      rewrite Hval. rewrite <- (scale_value q' e' e S2), <- S3.
      replace n with (m * (n / m))%Z at 2 by lia.
      rewrite mult_IZR. field. lra.
    + apply Z.eqb_neq in Er.
      set (q := (n / m)%Z) in *.
      set (q' := if (q mod 5 =? 0)%Z then (q + 1)%Z else q).
      assert (Hq' : (q <= q' <= q + 1)%Z) by (unfold q'; destruct (q mod 5 =? 0)%Z; lia).
      destruct (fix_approx q' e ltac:(lia)) as [Hs Hx]. split; [exact Hs|].
      apply (approx_trans 1 1 _ (IZR q' * p10 e)); [exact Hx|].
      rewrite Hval.
      assert (HQ : IZR q <= IZR n / IZR m <= IZR q + 1).
      { assert (A : IZR n = IZR m * IZR q + IZR (n mod m))
          by (rewrite <- mult_IZR, <- plus_IZR; f_equal; lia).
        assert (0 <= IZR (n mod m) <= IZR m)
          by (split; apply IZR_le; lia).
        split.
        - apply (Rmult_le_reg_r (IZR m)); [assumption|].
          replace (IZR n / IZR m * IZR m) with (IZR n) by (field; lra). nra.
        - apply (Rmult_le_reg_r (IZR m)); [assumption|].
          replace (IZR n / IZR m * IZR m) with (IZR n) by (field; lra). nra. }
      assert (Hq28R : IZR (10 ^ prec) <= IZR q) by (apply IZR_le; assumption).
      assert (Hq'R : IZR q <= IZR q' <= IZR q + 1).
      { split; [apply IZR_le; lia|]. rewrite <- plus_IZR. apply IZR_le; lia. }
      pose proof (p10_pos e) as Hpe.
      destruct (near_quotient (IZR (10 ^ prec)) (IZR q) (IZR q') (IZR n / IZR m)
                  u_big Hq28R Hq'R HQ) as (G0 & G1 & G2 & G3).
      unfold approx. rewrite pow_1.
      repeat split.
      * apply Rmult_le_pos; [assumption|apply Rlt_le; assumption].
      * apply Rmult_le_pos; [assumption|apply Rlt_le; assumption].
      * rewrite <- Rmult_assoc. apply Rmult_le_compat_r; [apply Rlt_le|]; assumption.
      * rewrite <- Rmult_assoc. apply Rmult_le_compat_r; [apply Rlt_le|]; assumption.
Qed.

End DecFacts.

Local Open Scope Z_scope.

(** ** Commission rates *)

Section Rates.
Import Dec DecFacts.

Lemma rate_check_all :
  forallb rate_check (map Z.of_nat (seq 0 (Z.to_nat 10001))) = true.
Proof. vm_compute. reflexivity. Qed.

Lemma rate_facts (bps : Z) :
  0 <= bps <= 10000 ->
  nonneg (rate_of bps) /\ nonneg (Dec.sub Dec.one (rate_of bps)) /\
  (value (rate_of bps) + value (Dec.sub Dec.one (rate_of bps)) = 1)%R.
Proof.
  intros H.
  assert (Hin : In bps (map Z.of_nat (seq 0 (Z.to_nat 10001)))).
  { apply in_map_iff. exists (Z.to_nat bps). split; [lia|]. apply in_seq. lia. }
  pose proof (proj1 (forallb_forall _ _) rate_check_all bps Hin) as Hc.
  unfold rate_check in Hc.
  set (r := rate_of bps) in *. set (q := Dec.sub Dec.one r) in *.
  set (e := Z.min (Z.min (d_exp r) (d_exp q)) 0) in *.
  apply andb_prop in Hc. destruct Hc as [Hc H3].
  apply andb_prop in Hc. destruct Hc as [H1 H2].
  apply negb_true_iff in H1, H2. apply Z.eqb_eq in H3.
  split; [exact H1|]. split; [exact H2|].
  unfold value.
  rewrite <- (scale_value (scoeff r) (d_exp r) e) by (unfold e; lia).
  rewrite <- (scale_value (scoeff q) (d_exp q) e) by (unfold e; lia).
  rewrite <- Rmult_plus_distr_r, <- plus_IZR, H3.
  rewrite <- (p10_IZR (0 - e)) by (unfold e; lia).
  rewrite <- p10_add. replace (0 - e + e) with 0 by lia. apply p10_0.
Qed.
End Rates.

(** ** The result monad and the loops *)

Lemma foldM_app {A B : Type} (f : A -> B -> result A) (l1 l2 : list B) (a : A) :
  foldM f (l1 ++ l2) a = do a' <- foldM f l1 a; foldM f l2 a'.
Proof.
  revert a; induction l1 as [|x l1 IH]; intros a; simpl; [reflexivity|].
  destruct (f a x); simpl; auto.
Qed.

Lemma foldM_ext {A B : Type} (f g : A -> B -> result A) (l : list B) (a : A) :
  (forall a x, In x l -> f a x = g a x) -> foldM f l a = foldM g l a.
Proof.
  revert a; induction l as [|x l IH]; intros a H; simpl; [reflexivity|].
  rewrite (H a x) by (left; reflexivity).
  destruct (g a x); simpl; auto.
  apply IH; intros; apply H; right; assumption.
Qed.

(** A loop whose body never raises is a plain fold. *)
Lemma foldM_pure {A B : Type} (f : A -> B -> A) (l : list B) (a : A) :
  foldM (fun a x => Ok (f a x)) l a = Ok (fold_left f l a).
Proof.
  revert a; induction l as [|x l IH]; intros a; simpl; auto.
Qed.

Lemma fold_left_flat_map {A B C : Type} (f : A -> C -> A) (g : B -> list C)
    (l : list B) (a : A) :
  fold_left f (flat_map g l) a = fold_left (fun a x => fold_left f (g x) a) l a.
Proof.
  revert a; induction l as [|x l IH]; intros a; simpl; [reflexivity|].
  rewrite fold_left_app; apply IH.
Qed.

(** ** Dictionaries *)

Section DictFacts.
Context {K V : Type} (eqb : K -> K -> bool).
Hypothesis eqb_spec : forall a b, eqb a b = true <-> a = b.

Lemma eqb_same (a : K) : eqb a a = true.
Proof. apply eqb_spec; reflexivity. Qed.

Lemma eqb_diff (a b : K) : a <> b -> eqb a b = false.
Proof.
  intros H; destruct (eqb a b) eqn:E; [|reflexivity].
  apply eqb_spec in E; contradiction.
Qed.

Lemma dict_get_set_same (d : list (K * V)) k v :
  dict_get eqb (dict_set eqb d k v) k = Some v.
Proof.
  induction d as [|[k' v'] d IH]; simpl.
  - rewrite eqb_same; reflexivity.
  - destruct (eqb k' k) eqn:E; simpl; rewrite E; auto.
Qed.

Lemma dict_get_set_other (d : list (K * V)) k k' v :
  k <> k' -> dict_get eqb (dict_set eqb d k v) k' = dict_get eqb d k'.
Proof.
  intros Hne; induction d as [|[k0 v0] d IH]; simpl.
  - rewrite (eqb_diff k k') by assumption; reflexivity.
  - destruct (eqb k0 k) eqn:E; simpl.
    + apply eqb_spec in E; subst k0.
      rewrite (eqb_diff k k') by assumption; reflexivity.
    + destruct (eqb k0 k'); auto.
Qed.

Lemma dict_get_set (d : list (K * V)) k k' v :
  dict_get eqb (dict_set eqb d k v) k' =
  if eqb k k' then Some v else dict_get eqb d k'.
Proof.
  destruct (eqb k k') eqn:E.
  - apply eqb_spec in E; subst; apply dict_get_set_same.
  - apply dict_get_set_other; intros ->; rewrite eqb_same in E; discriminate.
Qed.

Lemma dict_get_In (d : list (K * V)) k v :
  dict_get eqb d k = Some v -> In (k, v) d.
Proof.
  induction d as [|[k' v'] d IH]; simpl; [discriminate|].
  destruct (eqb k' k) eqn:E.
  - apply eqb_spec in E; intros [= ->]; subst; left; reflexivity.
  - intros H; right; auto.
Qed.

Lemma dict_get_None_notin (d : list (K * V)) k :
  dict_get eqb d k = None -> ~ In k (map fst d).
Proof.
  induction d as [|[k' v'] d IH]; simpl; [tauto|].
  destruct (eqb k' k) eqn:E; [discriminate|].
  intros H [->|Hin]; [rewrite eqb_same in E; discriminate|].
  apply IH; assumption.
Qed.

Lemma dict_set_keys_in (d : list (K * V)) k v k' :
  In k' (map fst (dict_set eqb d k v)) <-> k' = k \/ In k' (map fst d).
Proof.
  induction d as [|[k0 v0] d IH]; simpl.
  - split; [intros [<-|[]]|intros [->|[]]]; auto.
  - destruct (eqb k0 k) eqn:E; simpl.
    + apply eqb_spec in E; subst k0. split; [intros [<-|H]|intros [->|[<-|H]]]; auto.
    + rewrite IH; tauto.
Qed.

Lemma dict_set_NoDup (d : list (K * V)) k v :
  NoDup (map fst d) -> NoDup (map fst (dict_set eqb d k v)).
Proof.
  induction d as [|[k0 v0] d IH]; simpl; intros H.
  - constructor; [simpl; tauto|constructor].
  - inversion H as [|? ? Hnotin Hnd]; subst.
    destruct (eqb k0 k) eqn:E; simpl.
    + constructor; assumption.
    + constructor; [|auto].
      rewrite dict_set_keys_in; intros [->|Hin]; [|contradiction].
      rewrite eqb_same in E; discriminate.
Qed.

Lemma dict_get_NoDup_In (d : list (K * V)) k v :
  NoDup (map fst d) -> In (k, v) d -> dict_get eqb d k = Some v.
Proof.
  induction d as [|[k0 v0] d IH]; simpl; intros Hnd Hin; [contradiction|].
  inversion Hnd as [|? ? Hnotin Hnd']; subst.
  destruct Hin as [[= -> ->]|Hin].
  - rewrite eqb_same; reflexivity.
  - destruct (eqb k0 k) eqn:E; [|auto].
    apply eqb_spec in E; subst k0.
    exfalso; apply Hnotin. change k with (fst (k, v)). apply in_map; assumption.
Qed.
End DictFacts.

Lemma Zeqb_spec (a b : Z) : Z.eqb a b = true <-> a = b.
Proof. apply Z.eqb_eq. Qed.

Lemma Seqb_spec (a b : string) : String.eqb a b = true <-> a = b.
Proof. apply String.eqb_eq. Qed.

(** ** get_vessels_by_proposal *)

Lemma get_vessels_by_proposal_fold (s : Scenario) :
  get_vessels_by_proposal s =
  fold_left (fun acc uv => add_voted_vessel (fst uv) acc (snd uv)) (all_vessels s) [].
Proof.
  unfold get_vessels_by_proposal, all_vessels.
  rewrite fold_left_flat_map.
  generalize (@nil (Z * list VesselWithUser)).
  induction (users s) as [|u us IH]; intros acc; simpl; [reflexivity|].
  rewrite <- IH. f_equal.
  generalize acc. induction (vessels u) as [|v vs IHv]; intros acc'; simpl; auto.
Qed.

Lemma add_voted_vessel_ok u acc v :
  groups_ok acc -> groups_ok (add_voted_vessel u acc v).
Proof.
  intros [Hnd Hne]; unfold add_voted_vessel.
  destruct (voted_proposal_id v) as [pid|]; [|split; assumption].
  split; [apply dict_set_NoDup; [apply Zeqb_spec|assumption]|].
  intros k l Hin.
  assert (Hget : dict_get Z.eqb (dict_set Z.eqb acc pid
            (dict_get_default Z.eqb [] acc pid ++
             [{| vu_vessel := v; vu_user_id := user_id u |}])) k = Some l).
  { apply dict_get_NoDup_In; [apply Zeqb_spec| |assumption].
    apply dict_set_NoDup; [apply Zeqb_spec|assumption]. }
  rewrite (dict_get_set _ Zeqb_spec) in Hget.
  destruct (Z.eqb pid k).
  - injection Hget as <-. intros H; apply app_eq_nil in H; destruct H; discriminate.
  - apply (Hne k). eapply dict_get_In; [apply Zeqb_spec|eassumption].
Qed.

Lemma add_voted_vessel_get u acc v pid :
  dict_get_default Z.eqb [] (add_voted_vessel u acc v) pid =
  dict_get_default Z.eqb [] acc pid ++
  map with_user (filter (votes_for pid) [(u, v)]).
Proof.
  unfold add_voted_vessel, votes_for, dict_get_default; simpl.
  destruct (voted_proposal_id v) as [p|]; simpl; [|rewrite app_nil_r; reflexivity].
  rewrite (dict_get_set _ Zeqb_spec).
  destruct (Z.eqb p pid) eqn:E; simpl.
  - apply Z.eqb_eq in E; subst; reflexivity.
  - rewrite app_nil_r; reflexivity.
Qed.

Lemma grouping_fold_spec (l : list (User * Vessel)) acc :
  groups_ok acc ->
  let r := fold_left (fun acc uv => add_voted_vessel (fst uv) acc (snd uv)) l acc in
  groups_ok r /\
  forall pid, dict_get_default Z.eqb [] r pid =
              dict_get_default Z.eqb [] acc pid ++ map with_user (filter (votes_for pid) l).
Proof.
  revert acc; induction l as [|[u v] l IH]; intros acc Hok; simpl.
  - split; [assumption|]. intros; rewrite app_nil_r; reflexivity.
  - destruct (IH (add_voted_vessel u acc v) (add_voted_vessel_ok u acc v Hok))
      as [Hok' Hget].
    split; [exact Hok'|]. intros pid. rewrite Hget, add_voted_vessel_get.
    simpl. rewrite <- app_assoc. f_equal.
    destruct (votes_for pid (u, v)); reflexivity.
Qed.

Lemma groups_ok_nil : groups_ok [].
Proof. split; [constructor|intros k l []]. Qed.

Lemma vessels_by_proposal_ok (s : Scenario) :
  groups_ok (get_vessels_by_proposal s).
Proof.
  rewrite get_vessels_by_proposal_fold.
  apply (grouping_fold_spec (all_vessels s) [] groups_ok_nil).
Qed.

(** The group of a proposal is the list of its voters; a proposal nobody
    voted for has no key. *)
Lemma vessels_by_proposal_get (s : Scenario) (pid : Z) :
  dict_get Z.eqb (get_vessels_by_proposal s) pid =
  match voters_of s pid with
  | [] => None
  | l => Some l
  end.
Proof.
  pose proof (vessels_by_proposal_ok s) as [Hnd Hne].
  pose proof (grouping_fold_spec (all_vessels s) [] groups_ok_nil) as [_ Hget].
  cbv zeta in Hget. rewrite <- get_vessels_by_proposal_fold in Hget.
  specialize (Hget pid). simpl in Hget. fold (voters_of s pid) in Hget.
  unfold dict_get_default in Hget.
  destruct (dict_get Z.eqb (get_vessels_by_proposal s) pid) as [l|] eqn:E.
  - subst l. destruct (voters_of s pid) eqn:Ev; [|reflexivity].
    exfalso. apply (Hne pid []); [|reflexivity].
    eapply dict_get_In; [apply Zeqb_spec|eassumption].
  - rewrite <- Hget; reflexivity.
Qed.

(** ** Voting power per proposal *)

Lemma hydromancer_power_table (s : Scenario) :
  calculate_hydromancer_voting_power_by_proposal s =
  power_table (fun vs => sum_power (filter is_hydromancer vs) Dec.zero)
    (get_vessels_by_proposal s) [].
Proof. reflexivity. Qed.

Lemma total_power_table (s : Scenario) :
  calculate_total_voting_power_by_proposal s =
  power_table (fun vs => sum_power vs Dec.zero) (get_vessels_by_proposal s) [].
Proof. reflexivity. Qed.

Lemma power_table_get f items acc d pid :
  power_table f items acc = Ok d ->
  NoDup (map fst items) ->
  match dict_get Z.eqb items pid with
  | Some l => exists x, f l = Ok x /\ dict_get Z.eqb d pid = Some x
  | None => dict_get Z.eqb d pid = dict_get Z.eqb acc pid
  end.
Proof.
  unfold power_table.
  revert acc; induction items as [|[k l] items IH]; intros acc H Hnd; simpl in *.
  - injection H as <-; reflexivity.
  - inversion Hnd as [|? ? Hnotin Hnd']; subst.
    destruct (f l) as [x|e] eqn:Ef; simpl in H; [|discriminate].
    specialize (IH _ H Hnd').
    destruct (Z.eqb k pid) eqn:E.
    + apply Z.eqb_eq in E; subst k. exists x; split; [exact Ef|].
      destruct (dict_get Z.eqb items pid) as [l'|] eqn:Eg.
      * exfalso; apply Hnotin. apply (dict_get_In _ Zeqb_spec) in Eg.
        change pid with (fst (pid, l')); apply in_map; assumption.
      * rewrite IH. apply dict_get_set_same, Zeqb_spec.
    + destruct (dict_get Z.eqb items pid); [exact IH|].
      rewrite IH. apply dict_get_set_other; [apply Zeqb_spec|].
      intros ->; rewrite Z.eqb_refl in E; discriminate.
Qed.

(** The table is built as soon as every group can be summed. *)
Lemma power_table_ok f items acc :
  (forall k l, In (k, l) items -> exists x, f l = Ok x) ->
  exists d, power_table f items acc = Ok d.
Proof.
  unfold power_table.
  revert acc; induction items as [|[k l] items IH]; intros acc H; simpl.
  - eexists; reflexivity.
  - destruct (H k l (or_introl eq_refl)) as [x ->]; simpl.
    apply IH; intros; eapply H; right; eassumption.
Qed.

(** An error of the table is the error of one of its groups. *)
Lemma power_table_err f items acc e :
  power_table f items acc = Err e ->
  exists k l, In (k, l) items /\ f l = Err e.
Proof.
  unfold power_table.
  revert acc; induction items as [|[k l] items IH]; intros acc H; simpl in *.
  - discriminate.
  - destruct (f l) as [x|e'] eqn:Ef; simpl in H.
    + destruct (IH _ H) as (k' & l' & Hin & He). exists k', l'; auto.
    + injection H as ->. exists k, l; auto.
Qed.

(** The divisor of a commission rate is the constant 10000: the division
    never raises. *)
Lemma commission_rate_ok (bps : Z) :
  commission_rate bps = Ok (Dec.div_nz (Dec.of_Z bps) (D 10000 0)).
Proof. reflexivity. Qed.

(** ** Inactive proposals *)

Lemma foldM_skip {A B : Type} (f : A -> B -> result A) l1 x l2 a :
  (forall a, f a x = Ok a) -> foldM f (l1 ++ x :: l2) a = foldM f (l1 ++ l2) a.
Proof.
  intros H. rewrite !foldM_app. destruct (foldM f l1 a); simpl; [|reflexivity].
  rewrite H; reflexivity.
Qed.

Lemma fold_left_skip {A B : Type} (f : A -> B -> A) l1 x l2 a :
  (forall a, f a x = a) -> fold_left f (l1 ++ x :: l2) a = fold_left f (l1 ++ l2) a.
Proof.
  intros H. rewrite !fold_left_app. simpl. rewrite H; reflexivity.
Qed.

Section Inactive.
Variables (s : Scenario) (p : Proposal).
Hypothesis no_vote : voters_of s (proposal_id p) = [].

Lemma inactive_no_group :
  dict_get Z.eqb (get_vessels_by_proposal s) (proposal_id p) = None.
Proof. rewrite vessels_by_proposal_get, no_vote; reflexivity. Qed.

Lemma inactive_no_power f d :
  power_table f (get_vessels_by_proposal s) [] = Ok d ->
  dict_get Z.eqb d (proposal_id p) = None.
Proof.
  intros H.
  pose proof (power_table_get f _ _ _ (proposal_id p) H
                (proj1 (vessels_by_proposal_ok s))) as Hg.
  rewrite inactive_no_group in Hg. exact Hg.
Qed.

Lemma inactive_protocol_step rate rewards :
  protocol_proposal_step rate (get_vessels_by_proposal s) rewards p = rewards.
Proof.
  unfold protocol_proposal_step, dict_mem. rewrite inactive_no_group; reflexivity.
Qed.

Lemma inactive_hydromancer_step pr hr hp tp rewards :
  calculate_hydromancer_voting_power_by_proposal s = Ok hp ->
  hydromancer_proposal_step pr hr hp tp rewards p = Ok rewards.
Proof.
  intros H. unfold hydromancer_proposal_step.
  rewrite (inactive_no_power _ _ H); reflexivity.
Qed.

Lemma inactive_direct_step pr tp rewards :
  direct_proposal_step pr (get_vessels_by_proposal s) tp rewards p = Ok rewards.
Proof.
  unfold direct_proposal_step. rewrite inactive_no_group; reflexivity.
Qed.

Lemma inactive_delegated_step pr hr by_user rewards :
  delegated_proposal_step pr hr s by_user rewards p = Ok rewards.
Proof.
  unfold delegated_proposal_step. rewrite inactive_no_group; reflexivity.
Qed.
End Inactive.

Lemma delegated_step_proposals_irrelevant pr hr s l by_user rewards p :
  delegated_proposal_step pr hr (with_proposals s l) by_user rewards p =
  delegated_proposal_step pr hr s by_user rewards p.
Proof. reflexivity. Qed.

Lemma in_all_vessels (s : Scenario) u v :
  In (u, v) (all_vessels s) <-> In u (users s) /\ In v (vessels u).
Proof.
  unfold all_vessels. rewrite in_flat_map. split.
  - intros (u' & Hu & Hin). apply in_map_iff in Hin.
    destruct Hin as (v' & [= -> ->] & Hv). auto.
  - intros [Hu Hv]. exists u; split; [assumption|].
    apply in_map; assumption.
Qed.

Lemma filter_nil {A : Type} (f : A -> bool) (l : list A) :
  (forall x, In x l -> f x = false) -> filter f l = [].
Proof.
  induction l as [|x l IH]; intros H; simpl; [reflexivity|].
  rewrite (H x) by (left; reflexivity). apply IH; intros; apply H; right; assumption.
Qed.

Lemma no_vote_no_voters (s : Scenario) (pid : Z) :
  (forall u v, In u (users s) -> In v (vessels u) ->
               voted_proposal_id v <> Some pid) ->
  voters_of s pid = [].
Proof.
  intros H. unfold voters_of. rewrite filter_nil; [reflexivity|].
  intros [u v] Hin. apply in_all_vessels in Hin. destruct Hin as [Hu Hv].
  unfold votes_for; simpl. specialize (H u v Hu Hv).
  destruct (voted_proposal_id v) as [q|]; [|reflexivity].
  destruct (Z.eqb q pid) eqn:E; [|reflexivity].
  apply Z.eqb_eq in E; subst; contradiction.
Qed.

(** C7.  A proposal no vessel voted for contributes nothing: taking it out
    of the scenario leaves the whole result of calculate_all_rewards as it
    was, every amount and every key of the protocol, hydromancer and user
    reward maps (and the same exception, when the computation raises). *)
Theorem inactive_proposal_contributes_nothing
    (s : Scenario) (l1 l2 : list Proposal) (p : Proposal) :
  proposals s = l1 ++ p :: l2 ->
  (forall u v, In u (users s) -> In v (vessels u) ->
               voted_proposal_id v <> Some (proposal_id p)) ->
  calculate_all_rewards s = calculate_all_rewards (with_proposals s (l1 ++ l2)).
Proof.
  intros Hp Hnv.
  pose proof (no_vote_no_voters s (proposal_id p) Hnv) as no_vote.
  assert (Hprot : calculate_protocol_rewards s =
                  calculate_protocol_rewards (with_proposals s (l1 ++ l2))).
  { unfold calculate_protocol_rewards.
    rewrite !commission_rate_ok; cbn [bind].
    change (get_vessels_by_proposal (with_proposals s (l1 ++ l2)))
      with (get_vessels_by_proposal s).
    cbn [proposals protocol_config with_proposals].
    rewrite Hp, fold_left_skip; [reflexivity|].
    intros; apply inactive_protocol_step; assumption. }
  assert (Hhyd : calculate_hydromancer_rewards s =
                 calculate_hydromancer_rewards (with_proposals s (l1 ++ l2))).
  { unfold calculate_hydromancer_rewards.
    rewrite !commission_rate_ok; cbn [bind].
    change (calculate_hydromancer_voting_power_by_proposal
              (with_proposals s (l1 ++ l2)))
      with (calculate_hydromancer_voting_power_by_proposal s).
    change (calculate_total_voting_power_by_proposal (with_proposals s (l1 ++ l2)))
      with (calculate_total_voting_power_by_proposal s).
    cbn [proposals protocol_config with_proposals].
    destruct (calculate_hydromancer_voting_power_by_proposal s) as [hp|] eqn:Ehp;
      cbn [bind]; [|reflexivity].
    destruct (calculate_total_voting_power_by_proposal s) as [tp|]; cbn [bind];
      [|reflexivity].
    rewrite Hp, foldM_skip; [reflexivity|].
    intros; apply (inactive_hydromancer_step s); assumption. }
  assert (Hdir : calculate_user_direct_rewards s =
                 calculate_user_direct_rewards (with_proposals s (l1 ++ l2))).
  { unfold calculate_user_direct_rewards.
    rewrite !commission_rate_ok; cbn [bind].
    change (calculate_total_voting_power_by_proposal (with_proposals s (l1 ++ l2)))
      with (calculate_total_voting_power_by_proposal s).
    change (get_vessels_by_proposal (with_proposals s (l1 ++ l2)))
      with (get_vessels_by_proposal s).
    cbn [proposals protocol_config with_proposals].
    destruct (calculate_total_voting_power_by_proposal s) as [tp|]; cbn [bind];
      [|reflexivity].
    rewrite Hp, foldM_skip; [reflexivity|].
    intros; apply inactive_direct_step; assumption. }
  assert (Hdel : calculate_user_delegated_rewards s =
                 calculate_user_delegated_rewards (with_proposals s (l1 ++ l2))).
  { unfold calculate_user_delegated_rewards.
    rewrite !commission_rate_ok; cbn [bind].
    change (user_vessels_by_duration (with_proposals s (l1 ++ l2)))
      with (user_vessels_by_duration s).
    cbn [proposals protocol_config with_proposals].
    rewrite Hp, foldM_skip by (intros; apply inactive_delegated_step; assumption).
    apply foldM_ext; intros; symmetry; apply delegated_step_proposals_irrelevant. }
  unfold calculate_all_rewards, calculate_raw_rewards.
  rewrite Hprot, Hhyd, Hdir, Hdel. reflexivity.
Qed.

(** ** Validation of vessels *)

Lemma voting_power_valid (v : Vessel) :
  valid_vessel v = true ->
  calculate_voting_power v =
  Ok (Dec.mul (Dec.mul (locked_amount v) (token_multiplier_of (locked_denom v)))
        (duration_multiplier_of (lock_duration_rounds v))).
Proof.
  unfold valid_vessel, valid_denom, valid_duration, calculate_voting_power,
    token_multiplier_of, duration_multiplier_of.
  intros H. apply andb_prop in H. destruct H as [Hd Hr].
  cbn [dict_get token_multipliers duration_multipliers].
  destruct (String.eqb "dATOM" (locked_denom v)) eqn:E1;
    rewrite String.eqb_sym in E1; rewrite E1 in *;
    [|destruct (String.eqb "stATOM" (locked_denom v)) eqn:E2;
      rewrite String.eqb_sym in E2; rewrite E2 in *; [|discriminate]];
    (destruct (Z.eqb 1 (lock_duration_rounds v)) eqn:F1;
     rewrite Z.eqb_sym in F1; rewrite F1 in *;
     [reflexivity|
      destruct (Z.eqb 2 (lock_duration_rounds v)) eqn:F2;
      rewrite Z.eqb_sym in F2; rewrite F2 in *;
      [reflexivity|
       destruct (Z.eqb 3 (lock_duration_rounds v)) eqn:F3;
       rewrite Z.eqb_sym in F3; rewrite F3 in *; [reflexivity|discriminate]]]).
Qed.

Lemma voting_power_invalid (v : Vessel) :
  valid_vessel v = false ->
  calculate_voting_power v = Err ValueError \/
  calculate_voting_power v = Err KeyError.
Proof.
  unfold valid_vessel, valid_denom, valid_duration, calculate_voting_power.
  intros H.
  cbn [dict_get token_multipliers duration_multipliers].
  rewrite (String.eqb_sym "dATOM"), (String.eqb_sym "stATOM").
  rewrite (Z.eqb_sym 1), (Z.eqb_sym 2), (Z.eqb_sym 3).
  destruct (String.eqb (locked_denom v) "dATOM");
    destruct (String.eqb (locked_denom v) "stATOM"); simpl in H; auto;
    destruct (Z.eqb (lock_duration_rounds v) 1);
    destruct (Z.eqb (lock_duration_rounds v) 2);
    destruct (Z.eqb (lock_duration_rounds v) 3); simpl in H; auto; discriminate.
Qed.

(** calculate_voting_power raises nothing but its two validation errors. *)
Lemma voting_power_errors (v : Vessel) e :
  calculate_voting_power v = Err e -> e = ValueError \/ e = KeyError.
Proof.
  destruct (valid_vessel v) eqn:E.
  - rewrite (voting_power_valid v E); discriminate.
  - destruct (voting_power_invalid v E) as [-> | ->]; intros [= <-]; auto.
Qed.

Lemma sum_power_err l a e :
  sum_power l a = Err e ->
  exists v, In v l /\ calculate_voting_power (vu_vessel v) = Err e.
Proof.
  unfold sum_power. revert a; induction l as [|v l IH]; intros a H; simpl in H.
  - discriminate.
  - destruct (calculate_voting_power (vu_vessel v)) as [p|e'] eqn:Ep; simpl in H.
    + destruct (IH _ H) as (v' & Hin & Hv'). exists v'; split; [right|]; assumption.
    + injection H as ->. exists v; split; [left; reflexivity|assumption].
Qed.

Lemma sum_power_ok_all l a x :
  sum_power l a = Ok x ->
  forall v, In v l -> exists p, calculate_voting_power (vu_vessel v) = Ok p.
Proof.
  unfold sum_power. revert a; induction l as [|v l IH]; intros a H w Hin; simpl in *.
  - contradiction.
  - destruct (calculate_voting_power (vu_vessel v)) as [p|e'] eqn:Ep; simpl in H;
      [|discriminate].
    destruct Hin as [<-|Hin]; [eexists; eassumption|eauto].
Qed.

Lemma sum_power_all_ok l a :
  (forall v, In v l -> exists p, calculate_voting_power (vu_vessel v) = Ok p) ->
  exists x, sum_power l a = Ok x.
Proof.
  unfold sum_power. revert a; induction l as [|v l IH]; intros a H; simpl.
  - eexists; reflexivity.
  - destruct (H v (or_introl eq_refl)) as [p ->]; simpl.
    apply IH; intros; apply H; right; assumption.
Qed.

Lemma voter_in_group (s : Scenario) u v pid :
  In u (users s) -> In v (vessels u) -> voted_proposal_id v = Some pid ->
  exists l, dict_get Z.eqb (get_vessels_by_proposal s) pid = Some l /\
            In (with_user (u, v)) l.
Proof.
  intros Hu Hv Hvote.
  assert (Hin : In (with_user (u, v)) (voters_of s pid)).
  { unfold voters_of. apply in_map, filter_In. split.
    - apply in_all_vessels; auto.
    - unfold votes_for; simpl. rewrite Hvote. apply Z.eqb_refl. }
  rewrite vessels_by_proposal_get.
  destruct (voters_of s pid) as [|w l]; [contradiction|].
  eexists; split; [reflexivity|assumption].
Qed.

Lemma calculate_protocol_rewards_ok (s : Scenario) :
  exists r, calculate_protocol_rewards s = Ok r.
Proof.
  unfold calculate_protocol_rewards. rewrite commission_rate_ok; cbn [bind].
  eexists; reflexivity.
Qed.

(** C2, as the code has it.  A vessel is validated where its voting power
    is computed: every vessel that cast a vote is, and a scenario with a
    voting vessel of an invalid token or an invalid lock duration makes
    calculate_all_rewards raise ValueError (invalid token) or KeyError
    (invalid duration) and return nothing. *)
Theorem voting_vessel_is_validated (s : Scenario) (u : User) (v : Vessel) :
  In u (users s) -> In v (vessels u) ->
  voted_proposal_id v <> None ->
  valid_vessel v = false ->
  calculate_all_rewards s = Err ValueError \/
  calculate_all_rewards s = Err KeyError.
Proof.
  intros Hu Hv Hvote Hbad.
  destruct (voted_proposal_id v) as [pid|] eqn:Evote; [clear Hvote|contradiction].
  destruct (voter_in_group s u v pid Hu Hv Evote) as (l & Hl & Hin).
  assert (Hhyd : calculate_hydromancer_rewards s = Err ValueError \/
                 calculate_hydromancer_rewards s = Err KeyError).
  { unfold calculate_hydromancer_rewards. rewrite !commission_rate_ok; cbn [bind].
    rewrite hydromancer_power_table, total_power_table.
    destruct (power_table _ (get_vessels_by_proposal s) []) as [hp|e] eqn:Ehp;
      cbn [bind].
    - destruct (power_table (fun vs => sum_power vs Dec.zero)
                  (get_vessels_by_proposal s) []) as [tp|e] eqn:Etp; cbn [bind].
      + exfalso.
        pose proof (power_table_get _ _ _ _ pid Etp
                      (proj1 (vessels_by_proposal_ok s))) as Hg.
        rewrite Hl in Hg. destruct Hg as (x & Hx & _).
        destruct (sum_power_ok_all _ _ _ Hx _ Hin) as [pw Hpw]. simpl in Hpw.
        destruct (voting_power_invalid v Hbad) as [E|E]; rewrite E in Hpw;
          discriminate.
      + apply power_table_err in Etp. destruct Etp as (k & l' & _ & He).
        apply sum_power_err in He. destruct He as (w & _ & He).
        destruct (voting_power_errors _ _ He) as [-> | ->]; auto.
    - apply power_table_err in Ehp. destruct Ehp as (k & l' & _ & He).
      apply sum_power_err in He. destruct He as (w & _ & He).
      destruct (voting_power_errors _ _ He) as [-> | ->]; auto. }
  unfold calculate_all_rewards, calculate_raw_rewards.
  destruct (calculate_protocol_rewards_ok s) as [r ->]; cbn [bind].
  destruct Hhyd as [-> | ->]; cbn [bind]; auto.
Qed.

(** ** Conservation of a tribute *)

Section Conservation.
Import Dec DecFacts.

Lemma multipliers_nonneg tok d :
  nonneg (token_multiplier_of tok) /\ nonneg (duration_multiplier_of d).
Proof.
  unfold token_multiplier_of, duration_multiplier_of.
  destruct (String.eqb tok "dATOM"); destruct (Z.eqb d 1); destruct (Z.eqb d 2);
    split; reflexivity.
Qed.

Lemma voting_power_nonneg (v : Vessel) p :
  nonneg (locked_amount v) -> calculate_voting_power v = Ok p -> nonneg p.
Proof.
  intros Ha Hp. destruct (valid_vessel v) eqn:E.
  - rewrite (voting_power_valid v E) in Hp. injection Hp as <-.
    destruct (multipliers_nonneg (locked_denom v) (lock_duration_rounds v)).
    apply mul_approx; [apply mul_approx|]; assumption.
  - destruct (voting_power_invalid v E) as [H|H]; rewrite H in Hp; discriminate.
Qed.

Lemma Rsum_cons x l : Rsum (x :: l) = (x + Rsum l)%R.
Proof. reflexivity. Qed.

Lemma Rsum_app l1 l2 : Rsum (l1 ++ l2) = (Rsum l1 + Rsum l2)%R.
Proof. induction l1; simpl; [ring|rewrite IHl1; ring]. Qed.

Lemma power_value_ge0 v :
  nonneg (locked_amount (vu_vessel v)) -> (0 <= power_value v)%R.
Proof.
  intros H. unfold power_value.
  destruct (calculate_voting_power (vu_vessel v)) eqn:E; [|lra].
  apply value_ge0. eapply voting_power_nonneg; eassumption.
Qed.

Lemma Rsum_ge0 {A} (f : A -> R) l :
  (forall x, In x l -> (0 <= f x)%R) -> (0 <= Rsum (map f l))%R.
Proof.
  induction l as [|x l IH]; intros H; simpl; [lra|].
  pose proof (H x (or_introl eq_refl)).
  assert (0 <= Rsum (map f l))%R by (apply IH; intros; apply H; right; assumption).
  lra.
Qed.

(** A sum of n powers is n roundings away from the exact sum. *)
Lemma sum_power_approx l a x :
  (forall v, In v l -> nonneg (locked_amount (vu_vessel v))) ->
  nonneg a -> sum_power l a = Ok x ->
  nonneg x /\
  approx (List.length l) (value x) (value a + Rsum (map power_value l)).
Proof.
  unfold sum_power. revert a; induction l as [|v l IH]; intros a Hl Ha H; simpl in H.
  - injection H as <-. split; [assumption|]. simpl. rewrite Rplus_0_r.
    apply approx_refl, value_ge0; assumption.
  - destruct (calculate_voting_power (vu_vessel v)) as [p|] eqn:Ep; simpl in H;
      [|discriminate].
    assert (Hp : nonneg p)
      by (eapply voting_power_nonneg; [apply Hl; left; reflexivity|eassumption]).
    destruct (add_approx a p Ha Hp) as [Hs Hx].
    destruct (IH (Dec.add a p) (fun w Hw => Hl w (or_intror Hw)) Hs H) as [Hn Hy].
    split; [exact Hn|].
    cbn [List.length]. replace (S (List.length l)) with (List.length l + 1)%nat by lia.
    eapply approx_trans; [exact Hy|].
    rewrite map_cons, Rsum_cons.
    replace (power_value v) with (value p)
      by (unfold power_value; rewrite Ep; reflexivity).
    replace (value a + (value p + Rsum (map power_value l)))%R
      with ((value a + value p) + Rsum (map power_value l))%R by ring.
    apply approx_add; [exact Hx|].
    apply (approx_weaken 0 1); [lia|]. apply approx_refl.
    apply Rsum_ge0. intros w Hw. apply power_value_ge0, Hl. right; assumption.
Qed.

Lemma dict_set_fresh {V : Type} (d : list (string * V)) k v :
  ~ In k (map fst d) -> dict_set String.eqb d k v = d ++ [(k, v)].
Proof.
  induction d as [|[k' v'] d IH]; simpl; intros H; [reflexivity|].
  destruct (String.eqb k' k) eqn:E.
  - apply String.eqb_eq in E. subst. exfalso; apply H; left; reflexivity.
  - rewrite IH; [reflexivity|]. intros Hin; apply H; right; assumption.
Qed.

Lemma shares_value_app l1 l2 :
  shares_value (l1 ++ l2) = (shares_value l1 + shares_value l2)%R.
Proof. unfold shares_value. rewrite map_app. apply Rsum_app. Qed.

Lemma gt0_nonneg d : gt0 d = true -> nonneg d /\ is_zero d = false.
Proof.
  unfold gt0, nonneg. intros H. apply andb_prop in H. destruct H as [H1 H2].
  apply negb_true_iff in H1, H2. auto.
Qed.

Lemma value_zero_dec : value Dec.zero = 0%R.
Proof.
  unfold value, scoeff, coeff, Dec.zero. cbn [d_sign d_int d_exp Z.of_N].
  apply Rmult_0_l.
Qed.

Lemma eligible_users_fold pd by_user :
  eligible_users pd by_user = foldM (eligible_step pd) by_user ([], Dec.zero).
Proof.
  unfold eligible_users. apply foldM_ext. intros [a b] [c d] _. reflexivity.
Qed.

(** The total eligible power is one rounding per eligible user away from
    the sum of the users' powers, and every listed user has positive power. *)
Lemma eligible_fold_spec pd by_user :
  forall eup0 tep0 eup tep,
  foldM (eligible_step pd) by_user (eup0, tep0) = Ok (eup, tep) ->
  NoDup (map fst by_user) ->
  (forall k, In k (map fst by_user) -> ~ In k (map fst eup0)) ->
  nonneg tep0 ->
  Forall (fun e => gt0 (snd e) = true) eup0 ->
  approx (List.length eup0) (value tep0) (shares_value eup0) ->
  nonneg tep /\ Forall (fun e => gt0 (snd e) = true) eup /\
  approx (List.length eup) (value tep) (shares_value eup).
Proof.
  induction by_user as [|[uid vbd] rest IH]; intros eup0 tep0 eup tep H Hnd Hfresh Hn Hall Hap.
  - simpl in H. injection H as <- <-. auto.
  - cbn [foldM] in H. unfold eligible_step at 1 in H.
    destruct (eligible_power_of_user pd vbd) as [up|] eqn:Eup; cbn [bind] in H;
      [|discriminate].
    inversion Hnd as [|? ? Hnotin Hnd']; subst.
    destruct (gt0 up) eqn:Eg; cbn [bind] in H.
    + assert (Hf : ~ In uid (map fst eup0)) by (apply Hfresh; left; reflexivity).
      rewrite (dict_set_fresh eup0 uid up Hf) in H.
      destruct (gt0_nonneg up Eg) as [Hup _].
      destruct (add_approx tep0 up Hn Hup) as [Hs Hx].
      apply (IH _ _ _ _ H Hnd').
      * intros k Hk. rewrite map_app, in_app_iff. simpl.
        intros [Hin|[<-|[]]]; [|contradiction].
        apply (Hfresh k); [right|]; assumption.
      * exact Hs.
      * apply Forall_app; split; [assumption|]. constructor; [exact Eg|constructor].
      * rewrite length_app. cbn [List.length].
        replace (List.length eup0 + 1)%nat with (1 + List.length eup0)%nat by lia.
        eapply approx_trans; [exact Hx|].
        rewrite shares_value_app. unfold shares_value at 2. simpl.
        rewrite Rplus_0_r. apply approx_add; [exact Hap|].
        apply (approx_weaken 0); [lia|]. apply approx_refl, value_ge0; assumption.
    + apply (IH _ _ _ _ H Hnd'); auto.
      intros k Hk; apply Hfresh; right; assumption.
Qed.

Lemma add_delegated_vessel_NoDup u acc v :
  NoDup (map fst acc) -> NoDup (map fst (add_delegated_vessel u acc v)).
Proof.
  intros H. unfold add_delegated_vessel.
  destruct (String.eqb (controlled_by v) "hydromancer"); [|assumption].
  apply dict_set_NoDup; [apply Seqb_spec|assumption].
Qed.

Lemma user_vessels_by_duration_NoDup (s : Scenario) :
  NoDup (map fst (user_vessels_by_duration s)).
Proof.
  unfold user_vessels_by_duration.
  assert (G : forall us acc, NoDup (map fst acc) ->
    NoDup (map fst (fold_left
      (fun acc u => fold_left (add_delegated_vessel u) (vessels u) acc) us acc))).
  { induction us as [|u us IH]; intros acc H; simpl; [assumption|].
    apply IH. generalize acc H. induction (vessels u) as [|v vs IHv]; intros a Ha;
      simpl; [assumption|]. apply IHv, add_delegated_vessel_NoDup; assumption. }
  apply G. constructor.
Qed.

Lemma eligible_users_spec pd (s : Scenario) eup tep :
  eligible_users pd (user_vessels_by_duration s) = Ok (eup, tep) ->
  nonneg tep /\ Forall (fun e => gt0 (snd e) = true) eup /\
  approx (List.length eup) (value tep) (shares_value eup).
Proof.
  rewrite eligible_users_fold. intros H.
  apply (eligible_fold_spec pd _ [] Dec.zero eup tep H).
  - apply user_vessels_by_duration_NoDup.
  - intros k _ [].
  - reflexivity.
  - constructor.
  - simpl. rewrite value_zero_dec. unfold shares_value; simpl. apply approx_refl; lra.
Qed.

Lemma approx_pos_inv (k : nat) (a b : R) : approx k a b -> (0 < a)%R -> (0 < b)%R.
Proof.
  intros H Ha. destruct (Req_dec b 0) as [Hb|Hb].
  - apply (approx_zero_iff k a b H) in Hb. lra.
  - destruct H as (_ & H & _); lra.
Qed.

Lemma approx_0 (k : nat) : approx k 0 0.
Proof. apply (approx_weaken 0); [lia|]. apply approx_refl; lra. Qed.

Lemma mapM_sum_approx {A : Type} (f : A -> result (string * Decimal))
    (g : A -> R) (K : nat) (l : list A) (l' : list (string * Decimal)) :
  mapM f l = Ok l' ->
  (forall x y, In x l -> f x = Ok y -> approx K (value (snd y)) (g x)) ->
  approx K (shares_value l') (Rsum (map g l)) /\ List.length l' = List.length l.
Proof.
  revert l'; induction l as [|x l IH]; intros l' H Hf; simpl in H.
  - injection H as <-. split; [apply approx_0|reflexivity].
  - destruct (f x) as [y|] eqn:Ey; cbn [bind] in H; [|discriminate].
    destruct (mapM f l) as [ys|] eqn:Eys; cbn [bind] in H; [|discriminate].
    injection H as <-.
    destruct (IH ys eq_refl (fun a b Ha => Hf a b (or_intror Ha))) as [IH1 IH2].
    split; [|simpl; congruence].
    unfold shares_value. rewrite !map_cons, !Rsum_cons.
    apply approx_add; [|exact IH1].
    apply (Hf x y); [left; reflexivity|assumption].
Qed.

Lemma mapM_length {A B : Type} (f : A -> result B) (l : list A) (l' : list B) :
  mapM f l = Ok l' -> List.length l' = List.length l.
Proof.
  revert l'; induction l as [|x l IH]; intros l' H; simpl in H.
  - injection H as <-; reflexivity.
  - destruct (f x); cbn [bind] in H; [|discriminate].
    destruct (mapM f l) as [ys|]; cbn [bind] in H; [|discriminate].
    injection H as <-. simpl. rewrite (IH ys eq_refl). reflexivity.
Qed.

Lemma Rsum_scale {A : Type} (c : R) (f : A -> R) (l : list A) :
  Rsum (map (fun x => c * f x)%R l) = (c * Rsum (map f l))%R.
Proof.
  induction l as [|x l IH]; [unfold Rsum; simpl; ring|].
  rewrite !map_cons, !Rsum_cons, IH. ring.
Qed.

Lemma Rsum_map_ext {A : Type} (f g : A -> R) (l : list A) :
  (forall x, f x = g x) -> Rsum (map f l) = Rsum (map g l).
Proof.
  intros H. induction l as [|x l IH]; [reflexivity|].
  rewrite !map_cons, !Rsum_cons, H, IH. reflexivity.
Qed.

Lemma user_not_hydromancer v : is_user v = true -> is_hydromancer v = false.
Proof.
  unfold is_user, is_hydromancer. intros H. apply String.eqb_eq in H.
  rewrite H. reflexivity.
Qed.

(** A vessel is counted once: by the hydromancer or by its user. *)
Lemma Rsum_partition (f : VesselWithUser -> R) (l : list VesselWithUser) :
  (forall v, In v l -> is_user v || is_hydromancer v = true) ->
  Rsum (map f l) =
  (Rsum (map f (filter is_hydromancer l)) + Rsum (map f (filter is_user l)))%R.
Proof.
  induction l as [|v l IH]; intros H; [unfold Rsum; simpl; ring|].
  assert (IH' := IH (fun w Hw => H w (or_intror Hw))).
  specialize (H v (or_introl eq_refl)).
  cbn [filter]. rewrite map_cons, Rsum_cons, IH'.
  destruct (is_user v) eqn:Eu.
  - rewrite (user_not_hydromancer v Eu), map_cons, Rsum_cons. ring.
  - simpl in H. rewrite H, map_cons, Rsum_cons. ring.
Qed.

Lemma div_ok_inv a b c : Dec.div a b = Ok c -> is_zero b = false /\ c = div_nz a b.
Proof.
  unfold Dec.div. destruct (is_zero b); [destruct (is_zero a); discriminate|].
  intros [= <-]. auto.
Qed.

Lemma filter_length_le {A : Type} (f : A -> bool) (l : list A) :
  (List.length (filter f l) <= List.length l)%nat.
Proof.
  induction l as [|x l IH]; simpl; [lia|]. destruct (f x); simpl; lia.
Qed.

(** C1, as the code has it.  For a tribute of an active proposal on which
    the hydromancer's voting power and the total eligible delegated power are
    positive, the protocol commission, the hydromancer commission, the direct
    shares and the delegated shares add up to the tribute's amount up to the
    rounding of the 28-digit Decimal context: the sum and the amount are
    within the relative distance (1 + 5e-28)^K of each other, K being twice
    the number of voters plus the number of delegated shares plus 8. *)
Theorem conservation_up_to_rounding
    (s : Scenario) (p : Proposal) (t : Tribute) (sp : TributeSplit) :
  0 <= protocol_commission_bps (protocol_config s) <= 10000 ->
  0 <= hydromancer_commission_bps (protocol_config s) <= 10000 ->
  nonneg (amount t) ->
  (forall v, In v (voters_of s (proposal_id p)) ->
             nonneg (locked_amount (vu_vessel v)) /\
             is_user v || is_hydromancer v = true) ->
  tribute_split s p t = Ok sp ->
  gt0 (ts_hydromancer_power sp) = true ->
  gt0 (ts_total_eligible_power sp) = true ->
  approx (2 * List.length (voters_of s (proposal_id p))
          + List.length (ts_delegated sp) + 8)
    (split_total sp) (value (amount t)).
Proof.
  intros Hpb Hhb Ha Hvoters Hsplit HgH HgE.
  unfold tribute_split in Hsplit. rewrite !commission_rate_ok in Hsplit.
  cbn [bind] in Hsplit.
  fold (rate_of (protocol_commission_bps (protocol_config s))) in Hsplit.
  fold (rate_of (hydromancer_commission_bps (protocol_config s))) in Hsplit.
  destruct (rate_facts _ Hpb) as (Hpr & Hq & Hpq).
  destruct (rate_facts _ Hhb) as (Hhr & Hqh & Hhq).
  set (pr := rate_of (protocol_commission_bps (protocol_config s))) in *.
  set (hr := rate_of (hydromancer_commission_bps (protocol_config s))) in *.
  set (voted := voters_of s (proposal_id p)) in *.
  destruct (sum_power voted Dec.zero) as [T|] eqn:ET; cbn [bind] in Hsplit;
    [|discriminate].
  destruct (sum_power (filter is_hydromancer voted) Dec.zero) as [Hp|] eqn:EH;
    cbn [bind] in Hsplit; [|discriminate].
  destruct (Dec.div Hp T) as [hs|] eqn:Ehs; cbn [bind] in Hsplit; [|discriminate].
  destruct (mapM (direct_share pr T t) (filter is_user voted)) as [direct|] eqn:Ed;
    cbn [bind] in Hsplit; [|discriminate].
  destruct (eligible_users (bid_duration_months p) (user_vessels_by_duration s))
    as [[eup tep]|] eqn:Ee; cbn [bind] in Hsplit; [|discriminate].
  cbn [fst snd] in Hsplit.
  destruct (mapM (delegated_share (after_hydromancer_commission pr hr hs t) tep) eup)
    as [delegated|] eqn:Edel; cbn [bind] in Hsplit; [|discriminate].
  injection Hsplit as <-. cbn [ts_hydromancer_power ts_total_eligible_power] in HgH, HgE.
  unfold split_total. cbn [ts_protocol ts_hydromancer ts_direct ts_delegated].
  set (nv := List.length voted).
  (* the powers *)
  assert (Hzero : nonneg Dec.zero) by reflexivity.
  destruct (sum_power_approx voted Dec.zero T (fun v Hv => proj1 (Hvoters v Hv))
              Hzero ET) as [HTn HTa].
  assert (Hvf : forall v, In v (filter is_hydromancer voted) ->
                          nonneg (locked_amount (vu_vessel v))).
  { intros v Hv. apply filter_In in Hv. apply Hvoters, Hv. }
  destruct (sum_power_approx _ Dec.zero Hp Hvf Hzero EH) as [HHn HHa].
  rewrite value_zero_dec, Rplus_0_l in HTa, HHa.
  set (Tx := Rsum (map power_value voted)) in *.
  set (Hx := Rsum (map power_value (filter is_hydromancer voted))) in *.
  set (Ux := Rsum (map power_value (filter is_user voted))).
  assert (HTx : Tx = (Hx + Ux)%R)
    by (apply Rsum_partition; intros v Hv; apply Hvoters, Hv).
  assert (HUx : (0 <= Ux)%R).
  { apply Rsum_ge0. intros v Hv. apply power_value_ge0.
    apply filter_In in Hv. apply Hvoters, Hv. }
  destruct (gt0_nonneg Hp HgH) as [_ HHz].
  pose proof (value_pos Hp HHn HHz) as HvH.
  pose proof (approx_pos_inv _ _ _ HHa HvH) as HHx.
  assert (HTxp : (0 < Tx)%R) by lra.
  pose proof (approx_pos _ _ _ HTa HTxp) as HvT.
  apply (approx_weaken _ nv) in HHa; [|apply filter_length_le].
  fold nv in HTa.
  (* the hydromancer's share of the voting power *)
  destruct (div_ok_inv _ _ _ Ehs) as [HTz ->].
  destruct (div_nz_approx Hp T HHn HTn HTz) as [Hhsn Hhsa].
  pose proof (approx_trans _ _ _ _ _ Hhsa (approx_div _ _ _ _ _ _ HHa HTa HvT HTxp))
    as Hhs.
  set (hs := div_nz Hp T) in *.
  (* the chain of commissions *)
  set (va := value (amount t)) in *. set (vp := value pr) in *.
  set (vq := value (Dec.sub Dec.one pr)) in *.
  set (vh := value hr) in *. set (vqh := value (Dec.sub Dec.one hr)) in *.
  pose proof (value_ge0 _ Ha) as Hva. pose proof (value_ge0 _ Hpr) as Hvp.
  pose proof (value_ge0 _ Hq) as Hvq. pose proof (value_ge0 _ Hhr) as Hvh.
  pose proof (value_ge0 _ Hqh) as Hvqh.
  destruct (mul_approx (amount t) pr Ha Hpr) as [Hprotn Hprota].
  destruct (mul_approx (amount t) (Dec.sub Dec.one pr) Ha Hq) as [Hapcn Hapca].
  set (apc := Dec.mul (amount t) (Dec.sub Dec.one pr)) in *.
  destruct (mul_approx apc hs Hapcn Hhsn) as [Hhtsn Hhtsa].
  pose proof (approx_trans _ _ _ _ _ Hhtsa (approx_mul _ _ _ _ _ _ Hapca Hhs)) as Hhts.
  set (hts := Dec.mul apc hs) in *.
  destruct (mul_approx hts hr Hhtsn Hhr) as [Hhcn Hhca].
  pose proof (approx_trans _ _ _ _ _ Hhca
                (approx_mul _ _ _ _ _ _ Hhts (approx_refl _ Hvh))) as Hhc.
  destruct (mul_approx hts (Dec.sub Dec.one hr) Hhtsn Hqh) as [Hresn Hresa].
  pose proof (approx_trans _ _ _ _ _ Hresa
                (approx_mul _ _ _ _ _ _ Hhts (approx_refl _ Hvqh))) as Hres.
  (* the direct rewards *)
  pose proof (mapM_length _ _ _ Edel) as Hlen.
  set (K := (2 * nv + List.length delegated + 8)%nat).
  assert (Hdirect : approx K (shares_value direct)
                      (Rsum (map (fun v => va * vq * (power_value v / Tx))%R
                               (filter is_user voted)))).
  { apply (mapM_sum_approx _ _ K _ _ Ed).
    intros v y Hv Hy. unfold direct_share in Hy.
    destruct (calculate_voting_power (vu_vessel v)) as [pw|] eqn:Epw;
      cbn [bind] in Hy; [|discriminate].
    destruct (Dec.div pw T) as [us|] eqn:Eus; cbn [bind] in Hy; [|discriminate].
    injection Hy as <-. cbn [snd]. unfold direct_reward. fold apc.
    destruct (div_ok_inv _ _ _ Eus) as [_ ->].
    apply filter_In in Hv. destruct Hv as [Hv _].
    assert (Hpwn : nonneg pw)
      by (eapply voting_power_nonneg; [apply Hvoters; exact Hv|exact Epw]).
    destruct (div_nz_approx pw T Hpwn HTn HTz) as [Husn Husa].
    assert (Hpv : power_value v = value pw) by (unfold power_value; rewrite Epw; reflexivity).
    rewrite Hpv.
    pose proof (approx_trans _ _ _ _ _ Husa
                  (approx_div _ _ _ _ _ _ (approx_refl _ (value_ge0 _ Hpwn))
                     HTa HvT HTxp)) as Hus.
    destruct (mul_approx apc (div_nz pw T) Hapcn Husn) as [_ Hra].
    pose proof (approx_trans _ _ _ _ _ Hra (approx_mul _ _ _ _ _ _ Hapca Hus)) as Hr.
    eapply approx_weaken; [|exact Hr]. unfold K. lia. }
  (* the delegated rewards *)
  destruct (eligible_users_spec _ _ _ _ Ee) as (Htepn & Heup & Htepa).
  destruct (gt0_nonneg tep HgE) as [_ Htepz].
  pose proof (value_pos tep Htepn Htepz) as Hvtep.
  set (Se := shares_value eup) in *.
  pose proof (approx_pos_inv _ _ _ Htepa Hvtep) as HSe.
  unfold after_hydromancer_commission in Edel. fold apc in Edel. fold hts in Edel.
  set (res := Dec.mul hts (Dec.sub Dec.one hr)) in *.
  assert (Hdel : approx K (shares_value delegated)
                   (Rsum (map (fun e => va * vq * (Hx / Tx) * vqh
                                        * (value (snd e) / Se))%R eup))
                 /\ List.length delegated = List.length eup).
  { apply (mapM_sum_approx _ _ K _ _ Edel).
    intros e y He Hy. unfold delegated_share in Hy.
    destruct (Dec.div (snd e) tep) as [us|] eqn:Eus; cbn [bind] in Hy; [|discriminate].
    injection Hy as <-. cbn [snd].
    destruct (div_ok_inv _ _ _ Eus) as [_ ->].
    pose proof (proj1 (Forall_forall _ _) Heup e He) as Hge. cbn beta in Hge.
    destruct (gt0_nonneg _ Hge) as [Hen _].
    destruct (div_nz_approx (snd e) tep Hen Htepn Htepz) as [Husn Husa].
    pose proof (approx_trans _ _ _ _ _ Husa
                  (approx_div _ _ _ _ _ _ (approx_refl _ (value_ge0 _ Hen))
                     Htepa Hvtep HSe)) as Hus.
    destruct (mul_approx res (div_nz (snd e) tep) Hresn Husn) as [_ Hra].
    pose proof (approx_trans _ _ _ _ _ Hra (approx_mul _ _ _ _ _ _ Hres Hus)) as Hr.
    eapply approx_weaken; [|exact Hr].
    unfold K. rewrite Hlen. lia. }
  destruct Hdel as [Hdel _].
  (* the four parts together *)
  unfold hydromancer_commission. fold apc. fold hts.
  assert (Hideal : va =
    (va * vp + va * vq * (Hx / Tx) * vh
     + Rsum (map (fun v => va * vq * (power_value v / Tx))%R (filter is_user voted))
     + Rsum (map (fun e => va * vq * (Hx / Tx) * vqh * (value (snd e) / Se))%R eup))%R).
  { rewrite (Rsum_map_ext _ (fun v => (va * vq / Tx) * power_value v)%R)
      by (intros; field; lra).
    rewrite (Rsum_map_ext (fun e => va * vq * (Hx / Tx) * vqh * (value (snd e) / Se))%R
               (fun e => (va * vq * (Hx / Tx) * vqh / Se) * value (snd e))%R)
      by (intros; field; lra).
    rewrite !Rsum_scale. fold Ux. fold (shares_value eup). fold Se.
    rewrite HTx.
    replace vp with (1 - vq)%R by lra. replace vh with (1 - vqh)%R by lra.
    field. lra. }
  rewrite Hideal at 1.
  repeat apply approx_add.
  - eapply approx_weaken; [|exact Hprota]. unfold K; lia.
  - eapply approx_weaken; [|exact Hhc]. unfold K; lia.
  - exact Hdirect.
  - exact Hdel.
Qed.

End Conservation.

(** ** The sample scenario *)

Section Sample.
Local Open Scope string_scope.

(** C6.  On the sample scenario of the script, calculate_all_rewards
    returns protocol_rewards = {dATOM: "100.00", USDC: "50.00"} (with the
    hydromancer and user rewards shown), and before the final rounding the
    hydromancer's dATOM reward plus user A's dATOM reward is within 0.01 of
    900.00. *)
Theorem sample_scenario_rewards :
  calculate_all_rewards sample_scenario =
  Ok {| protocol_rewards := [("dATOM", "100.00"); ("USDC", "50.00")];
        hydromancer_rewards := [("dATOM", "30.15"); ("USDC", "15.08")];
        user_rewards := [("A", [("dATOM", "869.85"); ("USDC", "434.92")])] |}
  /\ exists raw,
       calculate_raw_rewards sample_scenario = Ok raw /\
       dec_leb
         (dec_abs
            (Dec.sub
               (Dec.add (reward_of (raw_hydromancer raw) "dATOM")
                  (reward_of (dict_get_default String.eqb [] (raw_users raw) "A")
                     "dATOM"))
               (D 90000 (-2))))
         (D 1 (-2)) = true.
Proof.
  split; [vm_compute; reflexivity|].
  eexists. split; [vm_compute; reflexivity|]. vm_compute. reflexivity.
Qed.

End Sample.

(** ** Division by a zero total power *)

Section Division.
Import Dec DecFacts.

Lemma div_ok_or_fail a b : ok_or_div_fail (Dec.div a b).
Proof.
  unfold Dec.div. destruct (Dec.is_zero b); [|left; eexists; reflexivity].
  right. destruct (Dec.is_zero a); eexists; (split; [reflexivity|]);
    [left|right]; reflexivity.
Qed.

Lemma bind_ok_or_fail {A B : Type} (m : result A) (k : A -> result B) :
  ok_or_div_fail m -> (forall a, m = Ok a -> ok_or_div_fail (k a)) ->
  ok_or_div_fail (bind m k).
Proof.
  intros [[a ->]|(e & -> & He)] Hk; simpl.
  - apply Hk; reflexivity.
  - right. exists e; auto.
Qed.

Lemma foldM_ok_or_fail {A B : Type} (f : A -> B -> result A) l a :
  (forall a x, In x l -> ok_or_div_fail (f a x)) -> ok_or_div_fail (foldM f l a).
Proof.
  revert a; induction l as [|x l IH]; intros a H; simpl.
  - left; eexists; reflexivity.
  - apply bind_ok_or_fail; [apply H; left; reflexivity|].
    intros a' _. apply IH. intros; apply H; right; assumption.
Qed.

Lemma foldM_fail_at {A B : Type} (f : A -> B -> result A) l1 x l2 a :
  (forall a y, In y l1 -> ok_or_div_fail (f a y)) ->
  (forall a, div_fail (f a x)) ->
  div_fail (foldM f (l1 ++ x :: l2) a).
Proof.
  intros H1 Hx. rewrite foldM_app.
  destruct (foldM_ok_or_fail f l1 a H1) as [[a' ->]|(e & -> & He)]; simpl.
  - destruct (Hx a') as (e & -> & He). simpl. exists e; auto.
  - exists e; auto.
Qed.

Lemma fix_zero s e : is_zero (fix_ s 0 e) = true.
Proof. reflexivity. Qed.

Lemma mul_zero_l a b : is_zero a = true -> is_zero (Dec.mul a b) = true.
Proof.
  intros H. apply is_zero_coeff in H. unfold Dec.mul. rewrite H, Z.mul_0_l.
  apply fix_zero.
Qed.

Lemma add_zero a b :
  is_zero a = true -> is_zero b = true -> is_zero (Dec.add a b) = true.
Proof.
  intros Ha Hb. apply is_zero_coeff in Ha, Hb.
  unfold Dec.add, scoeff. rewrite Ha, Hb.
  destruct (d_sign a), (d_sign b); simpl; apply fix_zero.
Qed.

Lemma zero_voting_power v pw :
  is_zero (locked_amount v) = true -> calculate_voting_power v = Ok pw ->
  is_zero pw = true.
Proof.
  intros Hz H. unfold calculate_voting_power in H.
  destruct (dict_get String.eqb token_multipliers (locked_denom v)); [|discriminate].
  destruct (dict_get Z.eqb duration_multipliers (lock_duration_rounds v));
    [|discriminate].
  injection H as <-. apply mul_zero_l, mul_zero_l, Hz.
Qed.

Lemma zero_sum_power l a x :
  (forall w, In w l -> is_zero (locked_amount (vu_vessel w)) = true) ->
  is_zero a = true -> sum_power l a = Ok x -> is_zero x = true.
Proof.
  unfold sum_power. revert a; induction l as [|w l IH]; intros a Hl Ha H; simpl in H.
  - injection H as <-; assumption.
  - destruct (calculate_voting_power (vu_vessel w)) as [pw|] eqn:E; simpl in H;
      [|discriminate].
    apply (IH (Dec.add a pw)); [intros; apply Hl; right; assumption| |assumption].
    apply add_zero; [assumption|].
    eapply zero_voting_power; [apply Hl; left; reflexivity|eassumption].
Qed.

Lemma div_zero_zero a b :
  is_zero a = true -> is_zero b = true -> Dec.div a b = Err InvalidOperation.
Proof. intros Ha Hb. unfold Dec.div. rewrite Ha, Hb. reflexivity. Qed.

Lemma dict_set_In {K V : Type} (eqb : K -> K -> bool)
    (eqb_spec : forall a b, eqb a b = true <-> a = b)
    (d : list (K * V)) k v k' v' :
  In (k', v') (dict_set eqb d k v) -> (k' = k /\ v' = v) \/ In (k', v') d.
Proof.
  induction d as [|[k0 v0] d IH]; simpl.
  - intros [[= <- <-]|[]]; auto.
  - destruct (eqb k0 k) eqn:E; simpl.
    + apply eqb_spec in E; subst k0. intros [[= <- <-]|H]; auto.
    + intros [H|H]; [auto|]. destruct (IH H); auto.
Qed.

Lemma voters_of_in (s : Scenario) k w :
  In w (voters_of s k) ->
  exists u v, w = with_user (u, v) /\ In u (users s) /\ In v (vessels u) /\
              voted_proposal_id v = Some k.
Proof.
  unfold voters_of. rewrite in_map_iff. intros ([u v] & <- & Hin).
  apply filter_In in Hin. destruct Hin as [Hin Hv].
  apply in_all_vessels in Hin. destruct Hin as [Hu Hv'].
  exists u, v. repeat split; try assumption.
  unfold votes_for in Hv; simpl in Hv.
  destruct (voted_proposal_id v) as [q|]; [|discriminate].
  apply Z.eqb_eq in Hv; subst; reflexivity.
Qed.

Lemma group_is_voters (s : Scenario) k l :
  In (k, l) (get_vessels_by_proposal s) -> l = voters_of s k /\ l <> [].
Proof.
  intros Hin. destruct (vessels_by_proposal_ok s) as [Hnd Hne].
  pose proof (dict_get_NoDup_In _ Zeqb_spec _ _ _ Hnd Hin) as Hg.
  rewrite vessels_by_proposal_get in Hg.
  destruct (voters_of s k); [discriminate|]. injection Hg as <-.
  split; [reflexivity|discriminate].
Qed.

Lemma add_delegated_vessel_ok (s : Scenario) u acc v :
  In u (users s) -> In v (vessels u) ->
  delegated_groups_ok s acc -> delegated_groups_ok s (add_delegated_vessel u acc v).
Proof.
  intros Hu Hv Hok. unfold add_delegated_vessel.
  destruct (String.eqb (controlled_by v) "hydromancer") eqn:Ec; [|assumption].
  apply String.eqb_eq in Ec.
  intros uid d k l w Hin Hkl Hw.
  apply (dict_set_In _ Seqb_spec) in Hin. destruct Hin as [[-> ->]|Hin];
    [|eapply Hok; eassumption].
  apply (dict_set_In _ Zeqb_spec) in Hkl. destruct Hkl as [[-> ->]|Hkl].
  - apply in_app_iff in Hw. destruct Hw as [Hw|[<-|[]]].
    + unfold dict_get_default in Hw.
      destruct (dict_get String.eqb acc (user_id u)) as [bd|] eqn:Eb.
      * apply (dict_get_In _ Seqb_spec) in Eb.
        destruct (dict_get Z.eqb bd (lock_duration_rounds v)) as [l0|] eqn:El;
          [|contradiction].
        apply (dict_get_In _ Zeqb_spec) in El. eapply Hok; eassumption.
      * simpl in Hw. contradiction.
    + exists u; auto.
  - unfold dict_get_default in Hkl.
    destruct (dict_get String.eqb acc (user_id u)) as [bd|] eqn:Eb; [|contradiction].
    apply (dict_get_In _ Seqb_spec) in Eb. eapply Hok; eassumption.
Qed.

Lemma user_vessels_by_duration_ok (s : Scenario) :
  delegated_groups_ok s (user_vessels_by_duration s).
Proof.
  unfold user_vessels_by_duration.
  assert (G : forall us acc, (forall u, In u us -> In u (users s)) ->
    delegated_groups_ok s acc ->
    delegated_groups_ok s (fold_left
      (fun acc u => fold_left (add_delegated_vessel u) (vessels u) acc) us acc)).
  { induction us as [|u us IH]; intros acc Hus H; simpl; [assumption|].
    apply IH; [intros; apply Hus; right; assumption|].
    assert (Hu : In u (users s)) by (apply Hus; left; reflexivity).
    assert (Gv : forall vs a, (forall v, In v vs -> In v (vessels u)) ->
              delegated_groups_ok s a ->
              delegated_groups_ok s (fold_left (add_delegated_vessel u) vs a)).
    { induction vs as [|v vs IHv]; intros a Hvs Ha; simpl; [assumption|].
      apply IHv; [intros; apply Hvs; right; assumption|].
      apply add_delegated_vessel_ok; [assumption|apply Hvs; left; reflexivity|assumption]. }
    apply Gv; auto. }
  apply G; [auto|]. intros uid d k l w [].
Qed.

Section AllValid.
Variable s : Scenario.
Hypothesis all_valid :
  forall u v, In u (users s) -> In v (vessels u) -> valid_vessel v = true.

Lemma valid_power_ok u v :
  In u (users s) -> In v (vessels u) -> exists pw, calculate_voting_power v = Ok pw.
Proof.
  intros Hu Hv. rewrite (voting_power_valid v (all_valid u v Hu Hv)).
  eexists; reflexivity.
Qed.

Lemma voters_sum_ok k (f : VesselWithUser -> bool) a :
  exists x, sum_power (filter f (voters_of s k)) a = Ok x.
Proof.
  apply sum_power_all_ok. intros w Hw. apply filter_In in Hw. destruct Hw as [Hw _].
  destruct (voters_of_in s k w Hw) as (u & v & -> & Hu & Hv & _).
  simpl. eapply valid_power_ok; eassumption.
Qed.

Lemma voters_total_ok k a : exists x, sum_power (voters_of s k) a = Ok x.
Proof.
  apply sum_power_all_ok. intros w Hw.
  destruct (voters_of_in s k w Hw) as (u & v & -> & Hu & Hv & _).
  simpl. eapply valid_power_ok; eassumption.
Qed.

Lemma hydromancer_table_ok :
  exists hp, calculate_hydromancer_voting_power_by_proposal s = Ok hp.
Proof.
  rewrite hydromancer_power_table. apply power_table_ok.
  intros k l Hin. destruct (group_is_voters s k l Hin) as [-> _].
  apply voters_sum_ok.
Qed.

Lemma total_table_ok :
  exists tp, calculate_total_voting_power_by_proposal s = Ok tp.
Proof.
  rewrite total_power_table. apply power_table_ok.
  intros k l Hin. destruct (group_is_voters s k l Hin) as [-> _].
  apply voters_total_ok.
Qed.

Lemma eligible_power_of_user_ok pd uid d :
  In (uid, d) (user_vessels_by_duration s) ->
  exists x, eligible_power_of_user pd d = Ok x.
Proof.
  intros Hin. unfold eligible_power_of_user.
  assert (G : forall d' a, (forall k l, In (k, l) d' -> In (k, l) d) ->
    exists x, foldM (fun user_power '(duration, vessels) =>
                if pd <=? duration then sum_power vessels user_power
                else Ok user_power) d' a = Ok x).
  { induction d' as [|[k l] d' IH]; intros a Hsub; simpl.
    - eexists; reflexivity.
    - assert (Hl : exists x, sum_power l a = Ok x).
      { apply sum_power_all_ok. intros w Hw.
        destruct (user_vessels_by_duration_ok s uid d k l w Hin
                    (Hsub k l (or_introl eq_refl)) Hw) as (u & Hu & Hv & _).
        eapply valid_power_ok; eassumption. }
      destruct (pd <=? k).
      + destruct Hl as [x ->]. simpl. apply IH. intros; apply Hsub; right; assumption.
      + simpl. apply IH. intros; apply Hsub; right; assumption. }
  apply G; auto.
Qed.

Lemma eligible_users_ok pd :
  exists r, eligible_users pd (user_vessels_by_duration s) = Ok r.
Proof.
  rewrite eligible_users_fold.
  assert (G : forall l acc, (forall e, In e l -> In e (user_vessels_by_duration s)) ->
             exists r, foldM (eligible_step pd) l acc = Ok r).
  { induction l as [|[uid d] l IH]; intros [eup tep] Hsub; simpl.
    - eexists; reflexivity.
    - destruct (eligible_power_of_user_ok pd uid d (Hsub _ (or_introl eq_refl)))
        as [x ->]. simpl.
      destruct (gt0 x); apply IH; intros; apply Hsub; right; assumption. }
  apply G; auto.
Qed.

End AllValid.

Section DivisionFailure.
Variable s : Scenario.
Hypothesis all_valid :
  forall u v, In u (users s) -> In v (vessels u) -> valid_vessel v = true.
Variables hp tp : list (Z * Decimal).
Hypothesis Hhp : calculate_hydromancer_voting_power_by_proposal s = Ok hp.
Hypothesis Htp : calculate_total_voting_power_by_proposal s = Ok tp.

Lemma total_lookup pid voted :
  dict_get Z.eqb (get_vessels_by_proposal s) pid = Some voted ->
  exists T, sum_power voted Dec.zero = Ok T /\ dict_get Z.eqb tp pid = Some T.
Proof.
  intros Hg. rewrite total_power_table in Htp.
  pose proof (power_table_get _ _ _ _ pid Htp (proj1 (vessels_by_proposal_ok s))) as H.
  rewrite Hg in H. exact H.
Qed.

Lemma hydromancer_lookup pid H :
  dict_get Z.eqb hp pid = Some H ->
  exists voted, dict_get Z.eqb (get_vessels_by_proposal s) pid = Some voted /\
                sum_power (filter is_hydromancer voted) Dec.zero = Ok H.
Proof.
  intros Hg. rewrite hydromancer_power_table in Hhp.
  pose proof (power_table_get _ _ _ _ pid Hhp (proj1 (vessels_by_proposal_ok s))) as G.
  destruct (dict_get Z.eqb (get_vessels_by_proposal s) pid) as [voted|].
  - destruct G as (x & Hx & Hd). exists voted. split; [reflexivity|]. congruence.
  - simpl in G. congruence.
Qed.

Lemma group_voters pid voted :
  dict_get Z.eqb (get_vessels_by_proposal s) pid = Some voted ->
  voted = voters_of s pid.
Proof.
  intros Hg. apply (dict_get_In _ Zeqb_spec) in Hg.
  apply group_is_voters in Hg. tauto.
Qed.

Lemma hydromancer_step_ok_or_fail pr hr acc p :
  ok_or_div_fail (hydromancer_proposal_step pr hr hp tp acc p).
Proof.
  unfold hydromancer_proposal_step.
  destruct (dict_get Z.eqb hp (proposal_id p)) as [H|] eqn:EH;
    [|left; eexists; reflexivity].
  destruct (Dec.gt0 H); [|left; eexists; reflexivity].
  destruct (hydromancer_lookup _ _ EH) as (voted & Hv & _).
  destruct (total_lookup _ _ Hv) as (T & _ & HT).
  unfold dict_index. rewrite HT. cbn [bind].
  apply bind_ok_or_fail; [apply div_ok_or_fail|].
  intros; left; eexists; reflexivity.
Qed.

Lemma direct_vessel_step_ok_or_fail pr T p acc w pid :
  In w (voters_of s pid) ->
  ok_or_div_fail (direct_vessel_step pr T p acc w).
Proof.
  intros Hw. unfold direct_vessel_step.
  destruct (voters_of_in s pid w Hw) as (u & v & -> & Hu & Hv & _).
  destruct (valid_power_ok s all_valid u v Hu Hv) as [pw Hpw]. simpl vu_vessel.
  rewrite Hpw. cbn [bind].
  apply bind_ok_or_fail; [apply div_ok_or_fail|].
  intros; left; eexists; reflexivity.
Qed.

Lemma direct_step_ok_or_fail pr acc p :
  ok_or_div_fail (direct_proposal_step pr (get_vessels_by_proposal s) tp acc p).
Proof.
  unfold direct_proposal_step.
  destruct (dict_get Z.eqb (get_vessels_by_proposal s) (proposal_id p))
    as [voted|] eqn:Ev; [|left; eexists; reflexivity].
  destruct (total_lookup _ _ Ev) as (T & _ & HT).
  unfold dict_index. rewrite HT. cbn [bind].
  apply foldM_ok_or_fail. intros a w Hw. apply filter_In in Hw. destruct Hw as [Hw _].
  rewrite (group_voters _ _ Ev) in Hw.
  eapply direct_vessel_step_ok_or_fail; eassumption.
Qed.

Lemma delegated_tribute_step_ok_or_fail residual tep eup dn acc :
  ok_or_div_fail (delegated_tribute_step residual tep eup dn acc).
Proof.
  unfold delegated_tribute_step. apply foldM_ok_or_fail.
  intros a [uid up] _. apply bind_ok_or_fail; [apply div_ok_or_fail|].
  intros; left; eexists; reflexivity.
Qed.

Lemma delegated_step_ok_or_fail pr hr acc p :
  ok_or_div_fail
    (delegated_proposal_step pr hr s (user_vessels_by_duration s) acc p).
Proof.
  unfold delegated_proposal_step.
  destruct (dict_get Z.eqb (get_vessels_by_proposal s) (proposal_id p))
    as [voted|] eqn:Ev; [|left; eexists; reflexivity].
  destruct (filter is_hydromancer voted) as [|w0 l0] eqn:Ef;
    [left; eexists; reflexivity|].
  rewrite <- Ef. rewrite (group_voters _ _ Ev).
  destruct (voters_sum_ok s all_valid (proposal_id p) is_hydromancer Dec.zero)
    as [H ->]. cbn [bind].
  rewrite Htp. cbn [bind].
  destruct (total_lookup _ _ Ev) as (T & _ & HT).
  unfold dict_index. rewrite HT. cbn [bind].
  apply bind_ok_or_fail; [apply div_ok_or_fail|]. intros hs _.
  destruct (eligible_users_ok s all_valid (bid_duration_months p)) as [[eup tep] ->].
  cbn [bind]. destruct (Dec.gt0 tep); [|left; eexists; reflexivity].
  apply foldM_ok_or_fail. intros a t _. apply delegated_tribute_step_ok_or_fail.
Qed.

(** The proposal whose voters all locked nothing. *)
Variable p : Proposal.
Hypothesis active : voters_of s (proposal_id p) <> [].
Hypothesis all_zero :
  forall w, In w (voters_of s (proposal_id p)) ->
            Dec.is_zero (locked_amount (vu_vessel w)) = true.
Hypothesis controllers :
  forall w, In w (voters_of s (proposal_id p)) ->
            is_user w || is_hydromancer w = true.

Lemma zero_group :
  dict_get Z.eqb (get_vessels_by_proposal s) (proposal_id p) =
  Some (voters_of s (proposal_id p)).
Proof.
  rewrite vessels_by_proposal_get. destruct (voters_of s (proposal_id p));
    [contradiction|reflexivity].
Qed.

Lemma zero_total :
  exists T, dict_get Z.eqb tp (proposal_id p) = Some T /\ Dec.is_zero T = true.
Proof.
  destruct (total_lookup _ _ zero_group) as (T & HT & Hd).
  exists T. split; [assumption|].
  exact (zero_sum_power _ Dec.zero T all_zero eq_refl HT).
Qed.

Lemma direct_fails_on_user_voter pr acc :
  filter is_user (voters_of s (proposal_id p)) <> [] ->
  div_fail (direct_proposal_step pr (get_vessels_by_proposal s) tp acc p).
Proof.
  intros Hne. unfold direct_proposal_step. rewrite zero_group.
  destruct zero_total as (T & HT & HTz). unfold dict_index. rewrite HT. cbn [bind].
  destruct (filter is_user (voters_of s (proposal_id p))) as [|w l] eqn:Ef;
    [contradiction|].
  assert (Hw : In w (voters_of s (proposal_id p))).
  { assert (In w (filter is_user (voters_of s (proposal_id p))))
      by (rewrite Ef; left; reflexivity).
    apply filter_In in H; tauto. }
  cbn [foldM]. unfold direct_vessel_step at 1.
  destruct (voters_of_in s _ w Hw) as (u & v & Ew & Hu & Hv & _).
  destruct (valid_power_ok s all_valid u v Hu Hv) as [pw Hpw].
  rewrite Ew in *. simpl vu_vessel in *. rewrite Hpw. cbn [bind].
  rewrite (div_zero_zero pw T); [|eapply zero_voting_power; [apply (all_zero _ Hw)|exact Hpw]|exact HTz].
  cbn [bind]. exists InvalidOperation. split; [reflexivity|left; reflexivity].
Qed.

Lemma delegated_fails_without_user_voter pr hr acc :
  filter is_user (voters_of s (proposal_id p)) = [] ->
  div_fail (delegated_proposal_step pr hr s (user_vessels_by_duration s) acc p).
Proof.
  intros Hnone. unfold delegated_proposal_step. rewrite zero_group.
  destruct (filter is_hydromancer (voters_of s (proposal_id p))) as [|w0 l0] eqn:Ef.
  - exfalso. destruct (voters_of s (proposal_id p)) as [|w l] eqn:Ev; [contradiction|].
    specialize (controllers w (or_introl eq_refl)).
    simpl in Hnone, Ef.
    destruct (is_user w); [discriminate|].
    destruct (is_hydromancer w); [discriminate|discriminate].
  - rewrite <- Ef.
    destruct (voters_sum_ok s all_valid (proposal_id p) is_hydromancer Dec.zero)
      as [H HH]. rewrite HH. cbn [bind].
    rewrite Htp. cbn [bind].
    destruct zero_total as (T & HT & HTz). unfold dict_index. rewrite HT. cbn [bind].
    rewrite (div_zero_zero H T); [| |exact HTz].
    + cbn [bind]. exists InvalidOperation. split; [reflexivity|left; reflexivity].
    + apply (zero_sum_power (filter is_hydromancer (voters_of s (proposal_id p)))
               Dec.zero H); [|reflexivity|exact HH].
      intros w Hw. apply filter_In in Hw. apply all_zero, Hw.
Qed.

End DivisionFailure.

Lemma div_fail_cases {A : Type} (r : result A) :
  div_fail r -> r = Err InvalidOperation \/ r = Err DivisionByZero.
Proof. intros (e & -> & [-> | ->]); auto. Qed.

(** C9.  Nothing guards the divisions by a proposal's total voting power.
    In a scenario whose vessels all have a valid token and duration, a
    proposal of the scenario that has voters, every one of them controlled by
    its user or by the hydromancer and every one with locked_amount 0, makes
    calculate_all_rewards raise a Decimal division error (InvalidOperation
    for 0 / 0, DivisionByZero for x / 0) instead of returning a result. *)
Theorem zero_power_proposal_raises (s : Scenario) (p : Proposal) :
  In p (proposals s) ->
  (forall u v, In u (users s) -> In v (vessels u) -> valid_vessel v = true) ->
  voters_of s (proposal_id p) <> [] ->
  (forall w, In w (voters_of s (proposal_id p)) ->
             Dec.is_zero (locked_amount (vu_vessel w)) = true) ->
  (forall w, In w (voters_of s (proposal_id p)) ->
             is_user w || is_hydromancer w = true) ->
  calculate_all_rewards s = Err InvalidOperation \/
  calculate_all_rewards s = Err DivisionByZero.
Proof.
  intros Hp Hvalid Hact Hzero Hctl.
  destruct (hydromancer_table_ok s Hvalid) as [hp Hhp].
  destruct (total_table_ok s Hvalid) as [tp Htp].
  destruct (in_split _ _ Hp) as (l1 & l2 & Hsplit).
  assert (Hraw : div_fail (calculate_raw_rewards s)).
  { unfold calculate_raw_rewards.
    destruct (calculate_protocol_rewards_ok s) as [pr0 ->]. cbn [bind].
    assert (Hh : ok_or_div_fail (calculate_hydromancer_rewards s)).
    { unfold calculate_hydromancer_rewards. rewrite !commission_rate_ok, Hhp, Htp.
      cbn [bind]. apply foldM_ok_or_fail. intros a x _.
      apply (hydromancer_step_ok_or_fail s hp tp Hhp Htp). }
    destruct Hh as [[h ->]|(e & -> & He)]; [cbn [bind]|exists e; auto].
    unfold calculate_user_direct_rewards. rewrite commission_rate_ok, Htp.
    cbn [bind]. rewrite Hsplit.
    destruct (filter is_user (voters_of s (proposal_id p))) as [|w l] eqn:Eu.
    - match goal with
      | |- div_fail (bind ?m _) =>
          assert (Hd : ok_or_div_fail m)
      end.
      { apply foldM_ok_or_fail. intros a x _.
        apply (direct_step_ok_or_fail s Hvalid tp Htp). }
      destruct Hd as [[d ->]|(e & -> & He)]; [cbn [bind]|exists e; auto].
      unfold calculate_user_delegated_rewards. rewrite !commission_rate_ok.
      cbn [bind]. rewrite Hsplit.
      match goal with
      | |- div_fail (bind ?m _) => assert (Hd : div_fail m)
      end.
      { apply foldM_fail_at.
        - intros a y _. apply (delegated_step_ok_or_fail s Hvalid tp Htp).
        - intros a. apply (delegated_fails_without_user_voter s Hvalid tp Htp p);
            assumption. }
      destruct Hd as (e & -> & He). exists e; auto.
    - match goal with
      | |- div_fail (bind ?m _) => assert (Hd : div_fail m)
      end.
      { apply foldM_fail_at.
        - intros a y _. apply (direct_step_ok_or_fail s Hvalid tp Htp).
        - intros a. apply (direct_fails_on_user_voter s Hvalid tp Htp p);
            try assumption. rewrite Eu; discriminate. }
      destruct Hd as (e & -> & He). exists e; auto. }
  unfold calculate_all_rewards.
  destruct Hraw as (e & -> & [-> | ->]); cbn [bind]; auto.
Qed.

End Division.

(** ** Voting power, commission layering and the dropped residual *)

Section Layering.
Import Dec DecFacts.

Lemma mk_eta (d : Decimal) : mkDecimal (d_sign d) (Z.to_N (coeff d)) (d_exp d) = d.
Proof. destruct d as [s c e]. unfold coeff; simpl. rewrite N2Z.id. reflexivity. Qed.

Lemma fix_digits s c e : 0 <= c -> coeff (fix_ s c e) < 10 ^ prec.
Proof. intros H. apply (fix_spec s c e H). Qed.

Lemma mul_digits a b : coeff (Dec.mul a b) < 10 ^ prec.
Proof.
  unfold Dec.mul. apply fix_digits.
  apply Z.mul_nonneg_nonneg; apply coeff_nonneg.
Qed.

(** Multiplying a rounded number by Decimal('1') changes nothing. *)
Lemma mul_one_r (x : Decimal) : coeff x < 10 ^ prec -> Dec.mul x Dec.one = x.
Proof.
  intros H. unfold Dec.mul.
  change (coeff Dec.one) with 1. change (d_exp Dec.one) with 0.
  change (d_sign Dec.one) with false.
  rewrite Z.mul_1_r, Z.add_0_r, xorb_false_r.
  rewrite fix_exact; [apply mk_eta|apply coeff_nonneg|assumption].
Qed.

(** x / x is Decimal('1'). *)
Lemma div_self (x : Decimal) : is_zero x = false -> Dec.div x x = Ok Dec.one.
Proof.
  intros Hz. unfold Dec.div. rewrite Hz. f_equal.
  unfold div_nz. rewrite Hz, xorb_nilpotent.
  apply is_zero_false_coeff in Hz.
  replace (ndigits (coeff x) - ndigits (coeff x) + prec + 1) with 29
    by (unfold prec; lia).
  change (0 <=? 29) with true. cbv iota.
  rewrite (Z.mul_comm (coeff x) (10 ^ 29)).
  rewrite Z.mod_mul by lia. change (0 =? 0) with true. cbv iota.
  rewrite Z.div_mul by lia.
  rewrite Z.sub_diag. vm_compute. reflexivity.
Qed.




Lemma filter_all {A : Type} (f : A -> bool) (l : list A) :
  (forall x, In x l -> f x = true) -> filter f l = l.
Proof.
  induction l as [|x l IH]; intros H; simpl; [reflexivity|].
  rewrite (H x) by (left; reflexivity). f_equal. apply IH.
  intros; apply H; right; assumption.
Qed.

(** C4.  On an active proposal whose voters are all controlled by the
    hydromancer, with a positive hydromancer power, the hydromancer's share
    of the power is Decimal('1'): calculate_hydromancer_rewards adds, for
    each tribute, amount * (1 - protocol rate) * hydromancer rate, and
    calculate_protocol_rewards adds amount * protocol rate, both in Decimal
    arithmetic; whether a delegating user is eligible plays no part. *)
Theorem commission_layering (s : Scenario) (p : Proposal)
    (hp tp : list (Z * Decimal)) (pr hr H : Decimal)
    (hydromancer_acc protocol_acc : list (string * Decimal)) :
  calculate_hydromancer_voting_power_by_proposal s = Ok hp ->
  calculate_total_voting_power_by_proposal s = Ok tp ->
  (forall w, In w (voters_of s (proposal_id p)) -> is_hydromancer w = true) ->
  dict_get Z.eqb hp (proposal_id p) = Some H ->
  Dec.gt0 H = true ->
  hydromancer_proposal_step pr hr hp tp hydromancer_acc p =
  Ok (fold_left
        (fun rewards t =>
           add_reward rewards (denom t)
             (Dec.mul (Dec.mul (amount t) (Dec.sub Dec.one pr)) hr))
        (tributes p) hydromancer_acc)
  /\ protocol_proposal_step pr (get_vessels_by_proposal s) protocol_acc p =
     fold_left
       (fun rewards t => add_reward rewards (denom t) (Dec.mul (amount t) pr))
       (tributes p) protocol_acc.
Proof.
  intros Hhp Htp Hall HH Hgt.
  destruct (hydromancer_lookup s hp Hhp _ _ HH) as (voted & Hv & HsumH).
  pose proof (group_voters s _ _ Hv) as ->.
  destruct (total_lookup s tp Htp _ _ Hv) as (T & HsumT & HT).
  rewrite (filter_all _ _ Hall) in HsumH.
  assert (T = H) by congruence. subst T.
  destruct (gt0_nonneg H Hgt) as [_ Hz].
  split.
  - unfold hydromancer_proposal_step. rewrite HH, Hgt.
    unfold dict_index. rewrite HT. cbn [bind]. rewrite (div_self H Hz). cbn [bind].
    f_equal. unfold hydromancer_commission.
    induction (tributes p) as [|t ts IH] in hydromancer_acc |- *; [reflexivity|].
    cbn [fold_left]. rewrite (mul_one_r (Dec.mul (amount t) (Dec.sub Dec.one pr)))
      by apply mul_digits.
    apply IH.
  - unfold protocol_proposal_step, dict_mem. rewrite Hv. reflexivity.
Qed.

Lemma foldM_replace {A B : Type} (f : A -> B -> result A) l1 x x' l2 a :
  (forall a, f a x' = f a x) ->
  foldM f (l1 ++ x' :: l2) a = foldM f (l1 ++ x :: l2) a.
Proof.
  intros H. rewrite !foldM_app. destruct (foldM f l1 a); simpl; [|reflexivity].
  rewrite H. reflexivity.
Qed.

Lemma fold_left_replace {A B : Type} (f : A -> B -> A) l1 x x' l2 a :
  (forall a, f a x' = f a x) ->
  fold_left f (l1 ++ x' :: l2) a = fold_left f (l1 ++ x :: l2) a.
Proof. intros H. rewrite !fold_left_app. simpl. rewrite H. reflexivity. Qed.

(** C3.  When the hydromancer voted on a proposal but the total eligible
    delegated power is not positive, the delegated path adds nothing for the
    proposal: the user rewards it has accumulated come back unchanged.  The
    protocol and hydromancer rewards do not look at eligibility at all: they
    are the same for any other bid duration of the proposal, one under which
    the residual is distributed included. *)
Theorem uncovered_residual_is_dropped (s : Scenario) (l1 l2 : list Proposal)
    (p : Proposal) (pr hr T : Decimal)
    (eligible_user_power : list (string * Decimal)) (total_eligible_power : Decimal)
    (user_rewards : list (string * list (string * Decimal))) :
  proposals s = l1 ++ p :: l2 ->
  (forall u v, In u (users s) -> In v (vessels u) -> valid_vessel v = true) ->
  filter is_hydromancer (voters_of s (proposal_id p)) <> [] ->
  sum_power (voters_of s (proposal_id p)) Dec.zero = Ok T ->
  Dec.is_zero T = false ->
  eligible_users (bid_duration_months p) (user_vessels_by_duration s) =
    Ok (eligible_user_power, total_eligible_power) ->
  Dec.gt0 total_eligible_power = false ->
  delegated_proposal_step pr hr s (user_vessels_by_duration s) user_rewards p =
    Ok user_rewards
  /\ forall d,
       let s' := with_proposals s (l1 ++ with_bid_duration p d :: l2) in
       calculate_protocol_rewards s' = calculate_protocol_rewards s /\
       calculate_hydromancer_rewards s' = calculate_hydromancer_rewards s.
Proof.
  intros Hp Hvalid Hhv HT HTz Hel Hgt. split.
  - unfold delegated_proposal_step.
    assert (Hv : dict_get Z.eqb (get_vessels_by_proposal s) (proposal_id p) =
                 Some (voters_of s (proposal_id p))).
    { rewrite vessels_by_proposal_get.
      destruct (voters_of s (proposal_id p)); [contradiction Hhv; reflexivity|reflexivity]. }
    rewrite Hv.
    destruct (filter is_hydromancer (voters_of s (proposal_id p))) as [|w0 l0] eqn:Ef;
      [contradiction|]. rewrite <- Ef.
    destruct (voters_sum_ok s Hvalid (proposal_id p) is_hydromancer Dec.zero)
      as [H ->]. cbn [bind].
    destruct (total_table_ok s Hvalid) as [tp Htp]. rewrite Htp. cbn [bind].
    destruct (total_lookup s tp Htp _ _ Hv) as (T' & HT' & Hd).
    assert (T' = T) by congruence. subst T'.
    unfold dict_index. rewrite Hd. cbn [bind].
    unfold Dec.div. rewrite HTz. cbn [bind].
    rewrite Hel. cbn [bind]. rewrite Hgt. reflexivity.
  - intros d s'. subst s'. split.
    + unfold calculate_protocol_rewards. rewrite !commission_rate_ok. cbn [bind].
      cbn [proposals protocol_config with_proposals].
      change (get_vessels_by_proposal (with_proposals s _))
        with (get_vessels_by_proposal s).
      rewrite Hp. f_equal. apply fold_left_replace. reflexivity.
    + unfold calculate_hydromancer_rewards. rewrite !commission_rate_ok. cbn [bind].
      cbn [proposals protocol_config with_proposals].
      change (calculate_hydromancer_voting_power_by_proposal (with_proposals s _))
        with (calculate_hydromancer_voting_power_by_proposal s).
      change (calculate_total_voting_power_by_proposal (with_proposals s _))
        with (calculate_total_voting_power_by_proposal s).
      destruct (calculate_hydromancer_voting_power_by_proposal s); cbn [bind];
        [|reflexivity].
      destruct (calculate_total_voting_power_by_proposal s); cbn [bind];
        [|reflexivity].
      rewrite Hp. apply foldM_replace. reflexivity.
Qed.

End Layering.

(** ** Delegated eligibility *)

Section Delegation.
Import Dec DecFacts.



















End Delegation.

(** ** Monotonicity of the shares *)

Section Monotonicity.
Import Dec DecFacts.

Lemma exact_power_ge0 w : good_voter w -> (0 <= exact_power w)%R.
Proof.
  intros [_ Hn]. unfold exact_power.
  destruct (multipliers_nonneg (locked_denom (vu_vessel w))
              (lock_duration_rounds (vu_vessel w))).
  apply Rmult_le_pos; [apply Rmult_le_pos|]; apply value_ge0; assumption.
Qed.

(** The computed power is two roundings away from the exact one. *)
Lemma power_approx w pw :
  good_voter w -> calculate_voting_power (vu_vessel w) = Ok pw ->
  nonneg pw /\ approx 2 (value pw) (exact_power w).
Proof.
  intros [Hv Hn] Hp. rewrite (voting_power_valid _ Hv) in Hp. injection Hp as <-.
  destruct (multipliers_nonneg (locked_denom (vu_vessel w))
              (lock_duration_rounds (vu_vessel w))) as [Ht Hd].
  destruct (mul_approx _ _ Hn Ht) as [Hn1 Ha1].
  destruct (mul_approx _ _ Hn1 Hd) as [Hn2 Ha2].
  split; [assumption|].
  apply (approx_trans 1 1 _ _ _ Ha2). unfold exact_power.
  replace 1%nat with (1 + 0)%nat at 1 by reflexivity.
  apply approx_mul; [assumption|]. apply approx_refl, value_ge0; assumption.
Qed.

Lemma approx_Rsum {A : Type} (f g : A -> R) (k : nat) (l : list A) :
  (forall x, In x l -> approx k (f x) (g x)) ->
  approx k (Rsum (map f l)) (Rsum (map g l)).
Proof.
  induction l as [|x l IH]; intros H.
  - unfold Rsum; simpl. apply approx_0.
  - rewrite !map_cons, !Rsum_cons. apply approx_add.
    + apply H; left; reflexivity.
    + apply IH. intros; apply H; right; assumption.
Qed.

Lemma power_value_approx w :
  good_voter w -> approx 2 (power_value w) (exact_power w).
Proof.
  intros Hg. unfold power_value.
  destruct (calculate_voting_power (vu_vessel w)) as [pw|] eqn:E.
  - apply (power_approx w pw Hg E).
  - destruct Hg as [Hv _]. rewrite (voting_power_valid _ Hv) in E. discriminate.
Qed.

(** The computed total is one rounding per voter, and two for the powers,
    away from the exact total. *)
Lemma total_approx l T :
  (forall w, In w l -> good_voter w) ->
  sum_power l Dec.zero = Ok T ->
  nonneg T /\ approx (List.length l + 2) (value T) (exact_total l).
Proof.
  intros Hl HT.
  destruct (sum_power_approx l Dec.zero T (fun w Hw => proj2 (Hl w Hw)) eq_refl HT)
    as [Hn Ha].
  split; [assumption|]. rewrite value_zero_dec, Rplus_0_l in Ha.
  eapply approx_trans; [exact Ha|]. apply approx_Rsum.
  intros w Hw. apply power_value_approx, Hl, Hw.
Qed.

(** The share the direct path computes for a voter is within
    (1 + u)^(n + 6) of the exact share, n being the number of voters. *)
Lemma share_approx l T w pw sh :
  (forall x, In x l -> good_voter x) -> good_voter w ->
  sum_power l Dec.zero = Ok T ->
  calculate_voting_power (vu_vessel w) = Ok pw ->
  Dec.div pw T = Ok sh ->
  approx (List.length l + 6) (value sh) (exact_share w l) /\ (0 < exact_total l)%R.
Proof.
  intros Hl Hw HT Hp Hs.
  destruct (total_approx l T Hl HT) as [HTn HTa].
  destruct (power_approx w pw Hw Hp) as [Hpn Hpa].
  destruct (div_ok_inv _ _ _ Hs) as [HTz ->].
  pose proof (value_pos T HTn HTz) as HvT.
  pose proof (approx_pos_inv _ _ _ HTa HvT) as Hex.
  split; [|assumption].
  destruct (div_nz_approx pw T Hpn HTn HTz) as [_ Hd].
  replace (List.length l + 6)%nat with (2 + (2 + (List.length l + 2)))%nat by lia.
  eapply approx_trans; [exact Hd|].
  unfold exact_share. apply approx_div; assumption.
Qed.

(** Shares that differ by more than the rounding tolerance in exact
    arithmetic are computed in the same order. *)
Lemma approx_order (k : nat) (a a' b b' : R) :
  approx k a' a -> approx k b' b ->
  (a * (1 + u) ^ (2 * k) < b)%R -> (a' < b')%R.
Proof.
  intros (Ha' & Ha & _ & H1) (Hb' & Hb & H2 & _) Hlt.
  pose proof (E_pow_pos k) as Ek.
  replace ((1 + u) ^ (2 * k))%R with ((1 + u) ^ k * (1 + u) ^ k)%R in Hlt
    by (rewrite <- pow_add; f_equal; lia).
  apply (Rmult_lt_reg_l ((1 + u) ^ k)); [assumption|].
  eapply Rle_lt_trans; [|eapply Rlt_le_trans; [exact Hlt|exact H2]].
  replace (a * ((1 + u) ^ k * (1 + u) ^ k))%R
    with ((1 + u) ^ k * ((1 + u) ^ k * a))%R by ring.
  apply Rmult_le_compat_l; lra.
Qed.

Lemma exact_total_app l1 l2 :
  exact_total (l1 ++ l2) = (exact_total l1 + exact_total l2)%R.
Proof. unfold exact_total. rewrite map_app. apply Rsum_app. Qed.

Lemma exact_total_cons w l :
  exact_total (w :: l) = (exact_power w + exact_total l)%R.
Proof. reflexivity. Qed.

Lemma exact_total_ge0 l :
  (forall x, In x l -> good_voter x) -> (0 <= exact_total l)%R.
Proof. intros H. apply Rsum_ge0. intros x Hx. apply exact_power_ge0, H, Hx. Qed.

Lemma with_amount_good w a : good_voter w -> nonneg a -> good_voter (with_amount w a).
Proof. intros [Hv _] Ha. split; [exact Hv|exact Ha]. Qed.

Lemma exact_power_mono w a :
  good_voter w -> (value (locked_amount (vu_vessel w)) <= value a)%R ->
  (exact_power w <= exact_power (with_amount w a))%R.
Proof.
  intros [_ Hn] Hle. unfold exact_power. cbn [with_amount vu_vessel locked_amount
    locked_denom lock_duration_rounds].
  destruct (multipliers_nonneg (locked_denom (vu_vessel w))
              (lock_duration_rounds (vu_vessel w))) as [Ht Hd].
  pose proof (value_ge0 _ Ht). pose proof (value_ge0 _ Hd).
  apply Rmult_le_compat_r; [assumption|]. apply Rmult_le_compat_r; assumption.
Qed.

(** C5, as the code has it.  A voter's share is vessel_power /
    total_power.  Raising the locked amount of one voter of a proposal, the
    other voters as they are, raises that voter's share and lowers every
    other voter's share in exact arithmetic, weakly; the Decimal shares the
    calculator computes move the same way, strictly, whenever the exact
    change is larger than the rounding tolerance (1 + 5e-28)^(2K), K being the
    number of voters plus 6. *)
Theorem share_monotone_up_to_rounding
    (l1 l2 : list VesselWithUser) (w : VesselWithUser) (a' T T' : Decimal) :
  let l := l1 ++ w :: l2 in
  let w' := with_amount w a' in
  let l' := l1 ++ w' :: l2 in
  let K := (List.length l + 6)%nat in
  (forall x, In x l -> good_voter x) ->
  nonneg a' ->
  (value (locked_amount (vu_vessel w)) <= value a')%R ->
  sum_power l Dec.zero = Ok T -> Dec.is_zero T = false ->
  sum_power l' Dec.zero = Ok T' -> Dec.is_zero T' = false ->
  (exact_share w l <= exact_share w' l')%R
  /\ (forall x, In x (l1 ++ l2) -> (exact_share x l' <= exact_share x l)%R)
  /\ (forall pw pw' sh sh',
        calculate_voting_power (vu_vessel w) = Ok pw ->
        calculate_voting_power (vu_vessel w') = Ok pw' ->
        Dec.div pw T = Ok sh -> Dec.div pw' T' = Ok sh' ->
        (exact_share w l * (1 + u) ^ (2 * K) < exact_share w' l')%R ->
        (value sh < value sh')%R)
  /\ (forall x px sh sh',
        In x (l1 ++ l2) ->
        calculate_voting_power (vu_vessel x) = Ok px ->
        Dec.div px T = Ok sh -> Dec.div px T' = Ok sh' ->
        (exact_share x l' * (1 + u) ^ (2 * K) < exact_share x l)%R ->
        (value sh' < value sh)%R).
Proof.
  intros l w' l' K Hl Ha' Hle HT HTz HT' HTz'.
  assert (Hw : good_voter w) by (apply Hl, in_app_iff; right; left; reflexivity).
  assert (Hw' : good_voter w') by (apply with_amount_good; assumption).
  assert (Hl1 : forall x, In x l1 -> good_voter x)
    by (intros; apply Hl, in_app_iff; left; assumption).
  assert (Hl2 : forall x, In x l2 -> good_voter x)
    by (intros; apply Hl, in_app_iff; right; right; assumption).
  assert (Hl' : forall x, In x l' -> good_voter x).
  { intros x Hx. apply in_app_iff in Hx. destruct Hx as [Hx|[<-|Hx]]; auto. }
  assert (Hlen : List.length l' = List.length l)
    by (unfold l, l'; rewrite !length_app; reflexivity).
  destruct (total_approx l T Hl HT) as [HTn HTa].
  destruct (total_approx l' T' Hl' HT') as [HTn' HTa'].
  pose proof (approx_pos_inv _ _ _ HTa (value_pos T HTn HTz)) as Hex.
  pose proof (approx_pos_inv _ _ _ HTa' (value_pos T' HTn' HTz')) as Hex'.
  pose proof (exact_power_mono w a' Hw Hle) as Hmono. fold w' in Hmono.
  pose proof (exact_power_ge0 w Hw) as Hp0.
  pose proof (exact_total_ge0 l1 Hl1) as H10.
  pose proof (exact_total_ge0 l2 Hl2) as H20.
  assert (Et : exact_total l = (exact_total l1 + (exact_power w + exact_total l2))%R)
    by (unfold l; rewrite exact_total_app, exact_total_cons; reflexivity).
  assert (Et' : exact_total l' = (exact_total l1 + (exact_power w' + exact_total l2))%R)
    by (unfold l'; rewrite exact_total_app, exact_total_cons; reflexivity).
  split; [|split; [|split]].
  - unfold exact_share.
    apply (Rmult_le_reg_r (exact_total l * exact_total l'));
      [apply Rmult_lt_0_compat; assumption|].
    replace (exact_power w / exact_total l * (exact_total l * exact_total l'))%R
      with (exact_power w * exact_total l')%R by (field; lra).
    replace (exact_power w' / exact_total l' * (exact_total l * exact_total l'))%R
      with (exact_power w' * exact_total l)%R by (field; lra).
    rewrite Et, Et'. nra.
  - intros x Hx. unfold exact_share.
    assert (Hx0 : (0 <= exact_power x)%R).
    { apply exact_power_ge0. apply in_app_iff in Hx. destruct Hx; auto. }
    apply (Rmult_le_reg_r (exact_total l * exact_total l'));
      [apply Rmult_lt_0_compat; assumption|].
    replace (exact_power x / exact_total l' * (exact_total l * exact_total l'))%R
      with (exact_power x * exact_total l)%R by (field; lra).
    replace (exact_power x / exact_total l * (exact_total l * exact_total l'))%R
      with (exact_power x * exact_total l')%R by (field; lra).
    apply Rmult_le_compat_l; [assumption|]. rewrite Et, Et'. lra.
  - intros pw pw' sh sh' Hp Hp' Hs Hs' Hgap.
    destruct (share_approx l T w pw sh Hl Hw HT Hp Hs) as [A1 _].
    destruct (share_approx l' T' w' pw' sh' Hl' Hw' HT' Hp' Hs') as [A2 _].
    rewrite Hlen in A2. fold K in A1, A2.
    exact (approx_order K _ _ _ _ A1 A2 Hgap).
  - intros x px sh sh' Hx Hp Hs Hs' Hgap.
    assert (Hxg : good_voter x).
    { apply in_app_iff in Hx. destruct Hx; auto. }
    destruct (share_approx l T x px sh Hl Hxg HT Hp Hs) as [A1 _].
    destruct (share_approx l' T' x px sh' Hl' Hxg HT' Hp Hs') as [A2 _].
    rewrite Hlen in A2. fold K in A1, A2.
    exact (approx_order K _ _ _ _ A2 A1 Hgap).
Qed.

End Monotonicity.

(** ** Witnesses and counterexamples *)

Section Examples.
Import Dec DecFacts.

(** ** Example scenarios *)

(** C1 as stated fails: with every position covered, the four parts of the
    tribute of amount 1 add up to 0.9999999999999999999999999999 before the
    final rounding. *)
Lemma conservation_is_not_exact :
  exists sp,
    tribute_split thirds_scenario (proposal_one 1) one_usdc = Ok sp /\
    Dec.gt0 (ts_hydromancer_power sp) = true /\
    Dec.gt0 (ts_total_eligible_power sp) = true /\
    split_total sp <> value (amount one_usdc).
Proof.
  eexists. split; [vm_compute; reflexivity|].
  split; [reflexivity|]. split; [reflexivity|].
  cbv [split_total shares_value Rsum map fold_right ts_protocol ts_hydromancer
       ts_direct ts_delegated value scoeff coeff d_sign d_int d_exp snd
       Z.of_N one_usdc amount D].
  assert (H0 : p10 0 = 1%R) by apply p10_0.
  assert (Hx : (IZR 10000000000000000000000000000 * p10 (-28) = 1)%R).
  { change 10000000000000000000000000000 with (10 ^ 28).
    rewrite <- (p10_IZR 28) by lia. rewrite <- p10_add. apply p10_0. }
  rewrite H0. set (x := p10 (-28)) in *. intros H. lra.
Qed.

Lemma conservation_up_to_rounding_witness :
  exists sp,
    tribute_split thirds_scenario (proposal_one 1) one_usdc = Ok sp /\
    approx 15 (split_total sp) (value (amount one_usdc)).
Proof.
  eexists. split; [vm_compute; reflexivity|].
  apply (conservation_up_to_rounding thirds_scenario (proposal_one 1) one_usdc).
  - vm_compute. split; discriminate.
  - vm_compute. split; discriminate.
  - reflexivity.
  - intros v Hv. vm_compute in Hv.
    destruct Hv as [<-|[<-|[<-|[]]]]; split; reflexivity.
  - vm_compute. reflexivity.
  - reflexivity.
  - reflexivity.
Defined.

(** C2 as stated fails: a vessel with token NTRN and duration 4 that never
    votes is never validated, and the computation returns a result. *)
Lemma validation_is_not_total :
  (exists u v, In u (users unvoted_invalid_scenario) /\ In v (vessels u) /\
               locked_denom v = "NTRN"%string /\ lock_duration_rounds v = 4) /\
  calculate_all_rewards unvoted_invalid_scenario =
  Ok {| protocol_rewards := []; hydromancer_rewards := []; user_rewards := [] |}.
Proof.
  split; [|vm_compute; reflexivity].
  eexists _, _. split; [left; reflexivity|]. split; [left; reflexivity|].
  split; reflexivity.
Qed.

Lemma voting_vessel_is_validated_witness :
  calculate_all_rewards voted_invalid_scenario = Err ValueError \/
  calculate_all_rewards voted_invalid_scenario = Err KeyError.
Proof.
  apply (voting_vessel_is_validated voted_invalid_scenario
           {| user_id := "A";
              vessels := [mk_vessel 1 4 "NTRN" (D 1 0) "user" (Some 1)] |}
           (mk_vessel 1 4 "NTRN" (D 1 0) "user" (Some 1))).
  - left; reflexivity.
  - left; reflexivity.
  - discriminate.
  - reflexivity.
Defined.

Lemma inactive_proposal_contributes_nothing_witness :
  calculate_all_rewards sample_with_idle_proposal =
  calculate_all_rewards
    (with_proposals sample_with_idle_proposal (proposals sample_scenario ++ [])).
Proof.
  apply (inactive_proposal_contributes_nothing sample_with_idle_proposal
           (proposals sample_scenario) [] idle_proposal).
  - reflexivity.
  - intros u v Hu Hv. simpl in Hu. destruct Hu as [<-|[]].
    simpl in Hv. destruct Hv as [<-|[<-|[]]]; discriminate.
Defined.


Lemma zero_power_proposal_raises_witness :
  calculate_all_rewards zero_power_scenario = Err InvalidOperation \/
  calculate_all_rewards zero_power_scenario = Err DivisionByZero.
Proof.
  apply (zero_power_proposal_raises zero_power_scenario (proposal_one 1)).
  - left; reflexivity.
  - intros u v Hu Hv. simpl in Hu. destruct Hu as [<-|[]].
    simpl in Hv. destruct Hv as [<-|[]]. reflexivity.
  - vm_compute. discriminate.
  - intros w Hw. vm_compute in Hw. destruct Hw as [<-|[]]. reflexivity.
  - intros w Hw. vm_compute in Hw. destruct Hw as [<-|[]]. reflexivity.
Defined.

Lemma uncovered_residual_is_dropped_witness :
  delegated_proposal_step (D 1 (-1)) (D 5 (-2)) short_lock_scenario
    (user_vessels_by_duration short_lock_scenario) [] (proposal_one 2) = Ok []
  /\ forall d,
       let s' := with_proposals short_lock_scenario
                   ([] ++ with_bid_duration (proposal_one 2) d :: []) in
       calculate_protocol_rewards s' = calculate_protocol_rewards short_lock_scenario /\
       calculate_hydromancer_rewards s' = calculate_hydromancer_rewards short_lock_scenario.
Proof.
  apply (uncovered_residual_is_dropped short_lock_scenario [] [] (proposal_one 2)
           (D 1 (-1)) (D 5 (-2)) (D 21000 (-2)) [] Dec.zero []).
  - reflexivity.
  - intros u v Hu Hv. simpl in Hu. destruct Hu as [<-|[<-|[]]];
      simpl in Hv; destruct Hv as [<-|[]]; reflexivity.
  - vm_compute. discriminate.
  - vm_compute. reflexivity.
  - reflexivity.
  - vm_compute. reflexivity.
  - reflexivity.
Defined.

Lemma commission_layering_witness :
  hydromancer_proposal_step (D 1 (-1)) (D 5 (-2)) [(1, D 13000 (-2))]
    [(1, D 13000 (-2))] [] (proposal_one 1) =
  Ok [("USDC"%string, D 45 (-3))]
  /\ protocol_proposal_step (D 1 (-1))
       (get_vessels_by_proposal delegated_only_scenario) [] (proposal_one 1) =
     [("USDC"%string, D 1 (-1))].
Proof.
  destruct (commission_layering delegated_only_scenario (proposal_one 1)
              [(1, D 13000 (-2))] [(1, D 13000 (-2))] (D 1 (-1)) (D 5 (-2))
              (D 13000 (-2)) [] []) as [H1 H2].
  - vm_compute. reflexivity.
  - vm_compute. reflexivity.
  - intros w Hw. vm_compute in Hw. destruct Hw as [<-|[]]. reflexivity.
  - reflexivity.
  - reflexivity.
  - split; [rewrite H1|rewrite H2]; vm_compute; reflexivity.
Defined.


Section MonotonicityExamples.
Local Open Scope string_scope.

(** C5 as stated fails.  Doubling the amount of a proposal's only voter
    leaves its reward where it was, and raising the amount of a
    hydromancer-controlled vessel raises the reward of another delegating
    user (B: 0.01 to 0.25) instead of lowering it. *)
Lemma raising_an_amount_is_not_strictly_monotone :
  calculate_all_rewards (sole_voter_scenario (D 100 0)) =
  calculate_all_rewards (sole_voter_scenario (D 200 0))
  /\ calculate_all_rewards (crowd_scenario (D 1 0)) =
     Ok {| protocol_rewards := [("USDC", "0.00")];
           hydromancer_rewards := [("USDC", "0.00")];
           user_rewards := [("C", [("USDC", "0.99")]); ("A", [("USDC", "0.00")]);
                            ("B", [("USDC", "0.01")])] |}
  /\ calculate_all_rewards (crowd_scenario (D 100 0)) =
     Ok {| protocol_rewards := [("USDC", "0.00")];
           hydromancer_rewards := [("USDC", "0.00")];
           user_rewards := [("C", [("USDC", "0.50")]); ("A", [("USDC", "0.25")]);
                            ("B", [("USDC", "0.25")])] |}.
Proof. repeat split; vm_compute; reflexivity. Qed.

End MonotonicityExamples.

Lemma share_monotone_up_to_rounding_witness :
  (exact_share voter_a [voter_a; voter_b]
   <= exact_share (with_amount voter_a (D 200 0))
        [with_amount voter_a (D 200 0); voter_b])%R.
Proof.
  apply (share_monotone_up_to_rounding [] [voter_b] voter_a (D 200 0)
           (D 26000 (-2)) (D 39000 (-2))).
  - intros x Hx. simpl in Hx. destruct Hx as [<-|[<-|[]]]; split; reflexivity.
  - reflexivity.
  - unfold value, scoeff, coeff. cbn [voter_a vu_vessel mk_vessel locked_amount D
      d_sign d_int d_exp Z.of_N]. rewrite p10_0. lra.
  - vm_compute. reflexivity.
  - reflexivity.
  - vm_compute. reflexivity.
  - reflexivity.
Defined.

End Examples.
